(** * ts-typed-function: multiple dispatch by runtime guards

    A shallow embedding of [src/typed-function.ts] (class [Typed]) and of
    the [signature] decorator of [src/decorators.ts], together with the
    properties of the dispatcher that the specification states.

    Layout: JavaScript data (type tokens, values, exceptions, the array
    heap), the guard combinators, reflected metadata, the [Typed] registry,
    the signature compiler, the function factory, then the theorems. *)

From Stdlib Require Import ZArith.
From stdpp Require Import base option list strings gmap.

Set Warnings "-register-all".
Local Open Scope string_scope.
Local Open Scope Z_scope.
Local Open Scope nat_scope.
Local Open Scope list_scope.

(* ===================================================================== *)
(** ** JavaScript data *)
(* ===================================================================== *)

(** A [Type] of [types.d.ts]: what the registry is keyed by.  [null] and
    [undefined] are accepted by the decorators ([@guard(null)]); any other
    token is an object, known by its identity [id].  [callable] is
    [typeof t === 'function'], [name] is [t.name] when that property is a
    string (what [getName] reads). *)
Inductive Type_ : Type :=
| TNull
| TUndefined
| TObj (id : nat) (callable : bool) (name : option string).

Global Instance Type_eq_dec : EqDecision Type_.
Proof. solve_decision. Defined.

Global Instance Type_countable : Countable Type_.
Proof.
  refine (inj_countable'
    (fun t => match t with
              | TNull => inl ()
              | TUndefined => inr (inl ())
              | TObj i c n => inr (inr (i, c, n))
              end)
    (fun s => match s with
              | inl _ => TNull
              | inr (inl _) => TUndefined
              | inr (inr (i, c, n)) => TObj i c n
              end) _).
  by intros [].
Defined.

(** JavaScript truthiness of a token ([map[key] || ctor]). *)
Definition truthy (t : Type_) : bool :=
  match t with TObj _ _ _ => true | _ => false end.

(** [typeof t === 'function'] *)
Definition isFunction (t : Type_) : bool :=
  match t with TObj _ c _ => c | _ => false end.

(** Runtime values handed to the dispatcher.  Numbers are the integers
    (the sources only multiply small integers); an object carries the
    constructor that made it ([x.constructor]) and its fields in
    declaration order.  The values of the model are instances of their own
    constructor only: there are no subclass instances among them. *)
Inductive value : Type :=
| VUndefined
| VNull
| VBoolean (b : bool)
| VNumber (n : Z)
| VString (s : string)
| VFunction (id : nat)
| VArray (items : list value)
| VObject (ctor : Type_) (fields : list value).

(** [x instanceof ctor] on the values above. *)
Definition instanceOf (ctor : Type_) (x : value) : bool :=
  match x with
  | VObject c _ => bool_decide (c = ctor)
  | _ => false
  end.

(** What the sources throw.  [Error] and [TypeError] carry their message.
    [RuntimeTypeError] is a [TypeError] raised below the sources (by the
    engine when destructuring [undefined], by reflect-metadata on a target
    that is not an object, by [WeakMap.set] on a key that is not an
    object): its message is the engine's.  [NoMatchOf] is the failure of
    [guardtypes.choose], see there. *)
Inductive exn : Type :=
| Error (message : string)
| TypeError (message : string)
| RuntimeTypeError
| NoMatchOf (attempted : list string).

Global Instance exn_eq_dec : EqDecision exn.
Proof. solve_decision. Defined.

Inductive result (A : Type) : Type :=
| Ok (a : A)
| Err (e : exn).
Arguments Ok {A} a.
Arguments Err {A} e.

(** [Guard<unknown>] on one value, and on the argument array. *)
Abbreviation Guard := (value -> bool) (only parsing).
Abbreviation ArgsGuard := (list value -> bool) (only parsing).
(** [Conversion<unknown, unknown>] and [Conversion<unknown[], unknown[]>] *)
Abbreviation Conversion := (value -> value) (only parsing).
Abbreviation ArgsConversion := (list value -> list value) (only parsing).
(** A method of the class given to [function]: applied to the argument
    array ([m.apply(this, args)]); the receiver is handed through as is. *)
Abbreviation Method := (list value -> value) (only parsing).

(** [const I = (x: unknown) => x;] *)
Definition I : Conversion := fun x => x.

(** [getName] (typed-function.ts, bottom of the file) *)
Definition getName (token : Type_) : string :=
  match token with
  | TNull => "null"
  | TUndefined => "undefined"
  | TObj _ _ (Some n) => n
  | TObj _ _ None => "unknown"
  end.

(** The double quote character of the template string in [_getGuard]. *)
Definition dquote : string :=
  String (Ascii.Ascii false true false false false true false false) EmptyString.

(** The three failures of the specification's taxonomy, as the sources
    raise them. *)
Definition NoSignatures : exn := Error "No signatures provided".
Definition UnknownType (token : Type_) : exn :=
  TypeError ("Unknown type " +:+ dquote +:+ getName token +:+ dquote).
Definition NoAlternatives : exn := TypeError "No alternatives were matched".

(** The [Type[]] arrays of the signatures live in the heap and are known by
    their address: a [Parameter_] ([Parameter] in decorators.ts) is such
    an array, held by reference in the metadata, so that two parameters
    may be one array. *)
Abbreviation ref := nat (only parsing).
Abbreviation Heap := (list (list Type_)) (only parsing).

(** The array at address [r]; an address that was never allocated reads as
    the empty array and cannot be written ([<[r:=ts]>] leaves the heap as
    it is there). *)
Definition deref (h : Heap) (r : ref) : list Type_ := default [] (h !! r).

(** [types.indexOf(t) < 0] *)
Definition notIndexOf (ts : list Type_) (t : Type_) : bool :=
  negb (bool_decide (t ∈ ts)).

(* ===================================================================== *)
(** ** guardtypes *)
(* ===================================================================== *)

Module guardtypes.

(** Modelled from the spec: the "attempted argument types" that the
    failure of [choose] carries; guardtypes.ts is not among the sources,
    and the spec does not say how a type is named.  The name is that of
    [typeof] for a primitive and of the constructor for an object. *)
Definition typeName (x : value) : string :=
  match x with
  | VUndefined => "undefined"
  | VNull => "null"
  | VBoolean _ => "boolean"
  | VNumber _ => "number"
  | VString _ => "string"
  | VFunction _ => "function"
  | VArray _ => "Array"
  | VObject c _ => getName c
  end.

(** Modelled from the spec: [intersect] of src/guardtypes.ts, which is
    imported by typed-function.ts and is not among the sources.  "true iff
    every guard accepts the value (AND)". *)
Definition intersect (guards : list Guard) : Guard :=
  fun x => forallb (fun g => g x) guards.

(** Modelled from the spec: [union] of src/guardtypes.ts.  "true iff any
    guard accepts, tested in array order, short-circuiting on first
    true". *)
Definition union (guards : list Guard) : Guard :=
  fun x => existsb (fun g => g x) guards.

(** Modelled from the spec: [tuple] of src/guardtypes.ts.  "over an
    argument list; true iff [args.length == slotGuards.length] and each
    position's slot guard accepts [args[i]]". *)
Fixpoint tuple (slotGuards : list Guard) : ArgsGuard :=
  fun args =>
    match slotGuards, args with
    | [], [] => true
    | g :: gs, a :: rest => g a && tuple gs rest
    | _, _ => false
    end.

(** Modelled from the spec: [matcher] of src/guardtypes.ts.  "given a
    value, find the first token (in set order) whose guard accepts it, and
    return its converter"; typed-function.ts uses the result as a
    [Conversion], so the converter found is applied to the value.  The spec
    does not say what happens when no guard accepts; the model leaves the
    value as it is there (lemma [matcher_union] shows that the case does
    not arise behind the slot's union guard). *)
Fixpoint matcher (guards : list Guard) (converters : list Conversion) : Conversion :=
  fun x =>
    match guards, converters with
    | g :: gs, c :: cs => if g x then c x else matcher gs cs x
    | _, _ => x
    end.

(** Modelled from the spec: [choose] of src/guardtypes.ts, the [select] of
    the spec.  "iterate candidates in registration order; return the first
    whose [tupleGuard(args)] is true; if none match, fail with [NoMatch],
    carrying the attempted argument types for diagnostics". *)
Definition choose {T : Type} (sequence : list (ArgsGuard * T)) (args : list value) : result T :=
  match list_find (fun gv => fst gv args = true) sequence with
  | Some (_, (_, v)) => Ok v
  | None => Err (NoMatchOf (typeName <$> args))
  end.

(** One position of [applier]. *)
Definition applyConverter (c : option Conversion) (x : value) : value :=
  match c with Some f => f x | None => x end.

(** [args.map((x, i) => ...)]: the converters paired with the arguments,
    arguments past the last converter left as they are. *)
Fixpoint applyAll (converters : list (option Conversion)) : ArgsConversion :=
  fun args =>
    match converters, args with
    | c :: cs, a :: rest => applyConverter c a :: applyAll cs rest
    | _, _ => args
    end.

(** Modelled from the spec: [applier] of src/guardtypes.ts.  "for each
    position with a recorded converter, replace [args[i]] with
    [converter(args[i])], leaving unconverted positions untouched".
    [_makeFunction] tests the result ([if (c0)]), so it is an option; the
    spec names no case in which it is absent, and the model always
    returns the function. *)
Definition applier (matchers : list (option Conversion)) : option ArgsConversion :=
  Some (applyAll matchers).

End guardtypes.

(* ===================================================================== *)
(** ** Reflected metadata (decorators.ts) *)
(* ===================================================================== *)

(** A [Signature] is an array of parameters, each a [Type[]] array held
    by reference. *)
Abbreviation Parameter_ := ref (only parsing).
Abbreviation Signature := (list Parameter_) (only parsing).

(** [SignatureMap]: the signatures by method key, the keys in the order of
    [for (const key in map)], which is the order in which an object
    enumerates its own keys: the array indices first, by ascending value,
    then the other keys in the order in which they were created. *)
Abbreviation SignatureMap := (list (string * list Signature)) (only parsing).

(** A decimal digit. *)
Definition digitOf (c : Ascii.ascii) : option N :=
  let n := Ascii.N_of_ascii c in
  if ((48 <=? n) && (n <=? 57))%N then Some (n - 48)%N else None.

Fixpoint decimalOf (acc : N) (s : string) : option N :=
  match s with
  | EmptyString => Some acc
  | String c rest =>
      match digitOf c with
      | Some d => decimalOf (10 * acc + d)%N rest
      | None => None
      end
  end.

(** The keys that are array indices: the canonical decimal numerals
    (no sign, no leading zero) of the integers below [2^32 - 1]. *)
Definition arrayIndex (key : string) : option N :=
  match key with
  | EmptyString => None
  | String c rest =>
      if (Ascii.N_of_ascii c =? 48)%N && negb (String.eqb rest EmptyString) then None
      else
        match decimalOf 0 key with
        | Some n => if (n <? 2 ^ 32 - 1)%N then Some n else None
        | None => None
        end
  end.

(** An existing key keeps its place and gets the new value. *)
Fixpoint replaceKey {V : Type} (map : list (string * V)) (key : string) (v : V)
    : list (string * V) :=
  match map with
  | [] => []
  | (k, w) :: rest =>
      if String.eqb k key then (k, v) :: rest else (k, w) :: replaceKey rest key v
  end.

(** A new array index [n] goes behind the smaller indices. *)
Fixpoint insertIndex {V : Type} (map : list (string * V)) (key : string) (n : N) (v : V)
    : list (string * V) :=
  match map with
  | [] => [(key, v)]
  | (k, w) :: rest =>
      match arrayIndex k with
      | Some m =>
          if (m <? n)%N then (k, w) :: insertIndex rest key n v
          else (key, v) :: (k, w) :: rest
      | None => (key, v) :: (k, w) :: rest
      end
  end.

(** [{ ...map, [key]: v }] on such a map: an existing key keeps its place;
    a new key comes last, unless it is an array index, which is enumerated
    with the indices. *)
Definition setKey {V : Type} (map : list (string * V)) (key : string) (v : V)
    : list (string * V) :=
  if existsb (fun kv => String.eqb (fst kv) key) map then replaceKey map key v
  else
    match arrayIndex key with
    | Some n => insertIndex map key n v
    | None => map ++ [(key, v)]
    end.

Definition getKey {V : Type} (map : list (string * V)) (key : string) : option V :=
  match list_find (fun kv => fst kv = key) map with
  | Some (_, (_, v)) => Some v
  | None => None
  end.

(** One argument of [@signature(...)]: a single [Type], or a [Type[]]
    array the caller holds. *)
Inductive SignatureArg : Type :=
| OneType (t : Type_)
| TypeArray (r : ref).

(** [paramTypes.map(t => Array.isArray(t) ? t : [t])]: an array is kept as
    it is (the very array, not a copy), a single type gets a new array. *)
Definition toParameter (acc : Signature * Heap) (t : SignatureArg) : Signature * Heap :=
  let '(sig, h) := acc in
  match t with
  | TypeArray r => (sig ++ [r], h)
  | OneType ty => (sig ++ [length h], h ++ [[ty]])
  end.

(** [signature(...paramTypes)(target, key)] (decorators.ts).  [isMethod] is
    [typeof target[key] === 'function']; [design] is the
    ['design:paramtypes'] metadata of the method; [meta] is the
    [META_METHODS] metadata of the target before, the result is that
    metadata after. *)
Definition signature (paramTypes : list SignatureArg) (isMethod : bool)
    (design : option (list Type_)) (key : string)
    (meta : option SignatureMap) (h : Heap) : option SignatureMap * Heap :=
  if isMethod then
    let paramTypes :=
      if length paramTypes <? 1 then OneType <$> default [] design else paramTypes in
    let '(newSignature, h') := foldl toParameter ([], h) paramTypes in
    let map := default [] meta in
    let existingSignatures := default [] (getKey map key) in
    (Some (setKey map key (newSignature :: existingSignatures)), h')
  else (meta, h).

(** An entry of a [GuardMap]: the key, [map[key]] (undefined when the
    target is the type) and the static method [ctor[key]]. *)
Record GuardItem : Type := {
  guardKey : string;
  guardType : Type_;
  guardMethod : Guard
}.
Abbreviation GuardMap := (list GuardItem) (only parsing).

(** An entry of a [ConversionMap]: the key, [{ fromType, toType }] and the
    static method [ctor[key]]. *)
Record ConversionItem : Type := {
  conversionKey : string;
  itemFromType : Type_;
  itemToType : Type_;
  conversionMethod : Conversion
}.
Abbreviation ConversionMap := (list ConversionItem) (only parsing).

(** What the registry reads and cannot change: the metadata that the
    decorators left on each constructor, and what [guardtypes.intersect]
    does with [undefined] (the spec gives [intersect] a meaning on guard
    lists only, and says of auto-registration on a token that is not a
    constructor that it "has no sensible behavior"). *)
Record Host : Type := {
  META_GUARDS : Type_ -> option GuardMap;
  META_CONVERSIONS : Type_ -> option ConversionMap;
  intersect_undefined : result Guard
}.

(** [Reflect.getMetadata(key, target)]: reflect-metadata throws a
    [TypeError] unless the target is an object. *)
Definition getMetadata {A : Type} (store : Type_ -> option A) (target : Type_) : result (option A) :=
  if truthy target then Ok (store target) else Err RuntimeTypeError.

(* ===================================================================== *)
(** ** The registry: class [Typed] *)
(* ===================================================================== *)

Record ConversionMethod : Type := {
  fromType : Type_;
  convert : Conversion
}.

Record TypedOptions : Type := {
  types : Type_;
  autoadd : bool
}.

Record Typed : Type := {
  guards : gmap Type_ (list Guard);
  conversions : gmap Type_ (list ConversionMethod);
  options : TypedOptions
}.

(** [WeakMap]: only objects are keys.  [get] and [has] answer [undefined]
    and [false] for any other key, [set] throws. *)
Definition weakGet {V : Type} (m : gmap Type_ V) (k : Type_) : option V :=
  if truthy k then m !! k else None.
Definition weakHas {V : Type} (m : gmap Type_ V) (k : Type_) : bool :=
  bool_decide (is_Some (weakGet m k)).
Definition weakSet {V : Type} (m : gmap Type_ V) (k : Type_) (v : V) : result (gmap Type_ V) :=
  if truthy k then Ok (<[k:=v]> m) else Err RuntimeTypeError.

(** The state that the methods of [Typed] work on: the object itself and
    the heap of [Type[]] arrays.  A thrown exception leaves the state as it
    was at the throw. *)
Record State : Type := {
  this : Typed;
  heap : Heap
}.

Definition M (A : Type) : Type := State -> result A * State.

Global Instance M_ret : MRet M := fun A a st => (Ok a, st).
Global Instance M_bind : MBind M := fun A B f m st =>
  match m st with
  | (Ok a, st') => f a st'
  | (Err e, st') => (Err e, st')
  end.

Definition throw {A : Type} (e : exn) : M A := fun st => (Err e, st).
Definition liftResult {A : Type} (r : result A) : M A := fun st => (r, st).
Definition getThis : M Typed := fun st => (Ok (this st), st).
Definition getHeap : M Heap := fun st => (Ok (heap st), st).
Definition setGuards (g : gmap Type_ (list Guard)) : M unit := fun st =>
  (Ok (), {| this := {| guards := g; conversions := conversions (this st);
                        options := options (this st) |};
             heap := heap st |}).
Definition setConversions (c : gmap Type_ (list ConversionMethod)) : M unit := fun st =>
  (Ok (), {| this := {| guards := guards (this st); conversions := c;
                        options := options (this st) |};
             heap := heap st |}).
Definition writeArray (r : ref) (ts : list Type_) : M unit := fun st =>
  (Ok (), {| this := this st; heap := <[r:=ts]> (heap st) |}).

(** [l.map(f)] and [l.forEach(f)] with a callback that works on the state
    and may throw: left to right, stopping at the first exception. *)
Fixpoint mapM {A B : Type} (f : A -> M B) (l : list A) : M (list B) :=
  match l with
  | [] => mret []
  | a :: rest => b ← f a; bs ← mapM f rest; mret (b :: bs)
  end.

Fixpoint forEach {A : Type} (f : A -> M unit) (l : list A) : M unit :=
  match l with
  | [] => mret ()
  | a :: rest => f a;; forEach f rest
  end.

(** A loop that carries local variables [acc] from one round to the next. *)
Fixpoint foldM {A B : Type} (f : A -> B -> M A) (acc : A) (l : list B) : M A :=
  match l with
  | [] => mret acc
  | b :: rest => acc' ← f acc b; foldM f acc' rest
  end.

Section Typed.

Variable host : Host.

(** [_addTypes(ctor)] *)
Definition _addTypes (ctor : Type_) : M unit :=
  map ← liftResult (getMetadata (META_GUARDS host) ctor);
  match map with
  | None =>
      T ← getThis;
      if autoadd (options T) && isFunction ctor
      then g ← liftResult (weakSet (guards T) ctor [instanceOf ctor]); setGuards g
      else mret ()
  | Some map =>
      forEach (fun item =>
        let type := if truthy (guardType item) then guardType item else ctor in
        T ← getThis;
        let existing := default [] (weakGet (guards T) type) in
        let method := guardMethod item in
        g ← liftResult (weakSet (guards T) type (existing ++ [method]));
        setGuards g) map
  end.

(** [_addConversions(ctor)] *)
Definition _addConversions (ctor : Type_) : M unit :=
  map ← liftResult (getMetadata (META_CONVERSIONS host) ctor);
  forEach (fun item =>
    T ← getThis;
    let existing := default [] (weakGet (conversions T) (itemToType item)) in
    let conversion := {| fromType := itemFromType item;
                         convert := conversionMethod item |} in
    c ← liftResult (weakSet (conversions T) (itemToType item) (existing ++ [conversion]));
    setConversions c) (default [] map).

(** [add(...ctors)] *)
Definition add (ctors : list Type_) : M unit :=
  forEach (fun c => _addTypes c;; _addConversions c) ctors.

(** [_getGuard(type)] *)
Definition _getGuard (type : Type_) : M Guard :=
  T ← getThis;
  (if negb (weakHas (guards T) type) then
     if negb (autoadd (options T)) then throw (UnknownType type)
     else _addTypes type
   else mret ());;
  T ← getThis;
  match weakGet (guards T) type with
  | Some gs => mret (guardtypes.intersect gs)
  | None => liftResult (intersect_undefined host)
  end.

(** The inner callback of [_convertParamToUnion]: one conversion that ends
    at a type of the array. *)
Definition pushConversion (acc : list Type_ * list Conversion) (c : ConversionMethod)
    : list Type_ * list Conversion :=
  let '(types, converters) := acc in
  if notIndexOf types (fromType c)
  then (types ++ [fromType c], converters ++ [convert c])
  else (types, converters).

(** [this.conversions.get(toType) || []] *)
Definition conversionsTo (T : Typed) (toType : Type_) : list ConversionMethod :=
  default [] (weakGet (conversions T) toType).

(** The outer callback: all conversions that end at [toType]. *)
Definition pushConversions (T : Typed) (acc : list Type_ * list Conversion) (toType : Type_)
    : list Type_ * list Conversion :=
  foldl pushConversion acc (conversionsTo T toType).

(** The [types.forEach] of [_convertParamToUnion].  [forEach] visits the
    elements that the array had when the loop began (the elements pushed
    meanwhile are not visited), while [indexOf] and [push] work on the
    array as it is by then. *)
Definition expand (T : Typed) (types : list Type_) : list Type_ * list Conversion :=
  foldl (pushConversions T) (types, (fun _ => I) <$> types) types.

(** [_convertParamToUnion(types)]: [types] is the array of the metadata
    itself, and the pushes land in it. *)
Definition _convertParamToUnion (types : Parameter_) : M (Guard * option Conversion) :=
  T ← getThis;
  h ← getHeap;
  let length_ := length (deref h types) in
  let '(expanded, converters) := expand T (deref h types) in
  writeArray types expanded;;
  let noConversions := length_ =? length expanded in
  gs ← mapM _getGuard expanded;
  let _union := guardtypes.union gs in
  if noConversions then mret (_union, None)
  else
    let _match := guardtypes.matcher gs converters in
    mret (_union, Some _match).

(** [_getSignatureGuard(params)] *)
Definition _getSignatureGuard (params : Signature) : M (ArgsGuard * option ArgsConversion) :=
  guardsAndMatchers ← mapM _convertParamToUnion params;
  let gs := fst <$> guardsAndMatchers in
  let matchers := snd <$> guardsAndMatchers in
  let _tuple := guardtypes.tuple gs in
  let _convert := guardtypes.applier matchers in
  mret (_tuple, _convert).

End Typed.

(** An entry of [sequence]: [[g, [method, convert]]]. *)
Abbreviation Candidate := (ArgsGuard * (Method * option ArgsConversion))%type (only parsing).

(** [if (c) args = c(args)] *)
Definition converted (c : option ArgsConversion) (args : list value) : list value :=
  match c with Some f => f args | None => args end.

(** The function that [_makeFunction] returns when nothing is special:
    [choose] over the whole sequence. *)
Definition generalScan (sequence : list Candidate) (args : list value) : result value :=
  match guardtypes.choose sequence args with
  | Ok (method, convert) => Ok (method (converted convert args))
  | Err e => Err e
  end.

(** [_makeFunction(sequence, minLength, maxLength)].  The first line
    destructures [sequence[0]], which throws when the sequence is empty. *)
Definition _makeFunction (sequence : list Candidate) (minLength : option nat) (maxLength : nat)
    : result (list value -> result value) :=
  match sequence with
  | [] => Err RuntimeTypeError
  | (g0, (m0, c0)) :: rest =>
      if maxLength =? 0 then
        Ok (fun args =>
              if 0 <? length args then Err NoAlternatives
              else Ok (m0 []))
      else if length sequence =? 1 then
        Ok (fun args =>
              if g0 args then Ok (m0 (converted c0 args))
              else Err NoAlternatives)
      else
        match rest with
        | [] => Err RuntimeTypeError
        | (g1, (m1, c1)) :: _ =>
            if length sequence =? 2 then
              Ok (fun args =>
                    if g0 args then Ok (m0 (converted c0 args))
                    else if g1 args then Ok (m1 (converted c1 args))
                    else Err NoAlternatives)
            else Ok (generalScan sequence)
        end
  end.

(** What [function] reads of the instance [new ctor()]: its [META_METHODS]
    metadata, its methods [target[key]], and the name
    ['name' in target ? target.name : ctor.name]. *)
Record Target : Type := {
  META_METHODS : option SignatureMap;
  member : string -> Method;
  targetName : string
}.

(** The callable that [function] returns, with the two properties it
    defines on it. *)
Record FunctionProperties : Type := {
  call : list value -> result value;
  fnLength : nat;
  fnName : string
}.

(** The local variables of [function] that its loop updates.  [minLength]
    starts at [Infinity], which is [None]. *)
Record Locals : Type := {
  maxLength : nat;
  minLength : option nat;
  sequence : list Candidate
}.

Definition minInfinity (m : option nat) (n : nat) : option nat :=
  match m with
  | None => Some n
  | Some k => Some (Nat.min k n)
  end.

Section Function.

Variable host : Host.

(** The body of [signatures.forEach(signature => ...)] in [function]. *)
Definition eachSignature (method : Method) (l : Locals) (signature : Signature) : M Locals :=
  '(g, convert) ← _getSignatureGuard host signature;
  mret {| maxLength := Nat.max (maxLength l) (length signature);
          minLength := minInfinity (minLength l) (length signature);
          sequence := sequence l ++ [(g, (method, convert))] |}.

(** The body of [for (const key in map)] in [function]. *)
Definition eachKey (target : Target) (l : Locals) (entry : string * list Signature) : M Locals :=
  let '(key, signatures) := entry in
  foldM (eachSignature (member target key)) l signatures.

(** The loop of [function]: [for (const key in map)] from
    [maxLength = 0], [minLength = Infinity] and [sequence = []]. *)
Definition sequenceOf (target : Target) (map : SignatureMap) : M Locals :=
  foldM (eachKey target) {| maxLength := 0; minLength := None; sequence := [] |} map.

(** [function(ctor)].  [Object.keys(map).length < 0] is written as it is
    in the source: it holds for no map. *)
Definition function_ (target : Target) : M FunctionProperties :=
  let name := targetName target in
  match META_METHODS target with
  | None => throw NoSignatures
  | Some map =>
      if length map <? 0 then throw NoSignatures
      else
        l ← sequenceOf target map;
        fn ← liftResult (_makeFunction (sequence l) (minLength l) (maxLength l));
        mret {| call := fn; fnLength := maxLength l; fnName := name |}
  end.

(** [new Typed(options)]: [{ ...defaultOptions, ...options }], then
    [this.add(this.options.types)].  A key that [options] does not have is
    [None]. *)
Definition newTyped (defaultOptions : TypedOptions)
    (types_ : option Type_) (autoadd_ : option bool) (h : Heap) : result unit * State :=
  let opts := {| types := default (types defaultOptions) types_;
                 autoadd := default (autoadd defaultOptions) autoadd_ |} in
  add host [types opts]
    {| this := {| guards := ∅; conversions := ∅; options := opts |}; heap := h |}.

End Function.

(* ===================================================================== *)
(** ** The default types and the class of the readme *)
(* ===================================================================== *)

Module DefaultTypes.

Definition Number : Type_ := TObj 1 true (Some "Number").
Definition String_ : Type_ := TObj 2 true (Some "String").
Definition Boolean : Type_ := TObj 3 true (Some "Boolean").
Definition Function_ : Type_ := TObj 4 true (Some "Function").
Definition Array_ : Type_ := TObj 5 true (Some "Array").
Definition Date : Type_ := TObj 6 true (Some "Date").
Definition RegExp : Type_ := TObj 7 true (Some "RegExp").
Definition Object_ : Type_ := TObj 8 true (Some "Object").
(** The sentinel [Unknown] of guardtypes: an object, not a constructor. *)
Definition Unknown : Type_ := TObj 9 false None.
(** The class itself. *)
Definition DefaultTypes : Type_ := TObj 10 true (Some "DefaultTypes").

Definition isNumber : Guard := fun x => match x with VNumber _ => true | _ => false end.
Definition isString : Guard := fun x => match x with VString _ => true | _ => false end.
Definition isBoolean : Guard := fun x => match x with VBoolean _ => true | _ => false end.
Definition isFunction : Guard := fun x => match x with VFunction _ => true | _ => false end.
Definition isArray : Guard := fun x => match x with VArray _ => true | _ => false end.
Definition isDate : Guard := instanceOf Date.
Definition isRegExp : Guard := instanceOf RegExp.
Definition isNull : Guard := fun x => match x with VNull => true | _ => false end.
Definition isUndefined : Guard := fun x => match x with VUndefined => true | _ => false end.
Definition isObject : Guard := fun x =>
  match x with VObject c _ => bool_decide (c = Object_) | _ => false end.
Definition isUnknown : Guard := fun _ => true.

(** The [META_GUARDS] metadata that the [@guard(...)] decorators of the
    class leave, in the order of the class body. *)
Definition guardMap : GuardMap :=
  [ {| guardKey := "isNumber"; guardType := Number; guardMethod := isNumber |};
    {| guardKey := "isString"; guardType := String_; guardMethod := isString |};
    {| guardKey := "isBoolean"; guardType := Boolean; guardMethod := isBoolean |};
    {| guardKey := "isFunction"; guardType := Function_; guardMethod := isFunction |};
    {| guardKey := "isArray"; guardType := Array_; guardMethod := isArray |};
    {| guardKey := "isDate"; guardType := Date; guardMethod := isDate |};
    {| guardKey := "isRegExp"; guardType := RegExp; guardMethod := isRegExp |};
    {| guardKey := "isNull"; guardType := TNull; guardMethod := isNull |};
    {| guardKey := "isUndefined"; guardType := TUndefined; guardMethod := isUndefined |};
    {| guardKey := "isObject"; guardType := Object_; guardMethod := isObject |};
    {| guardKey := "isUnknown"; guardType := Unknown; guardMethod := isUnknown |} ].

(** [defaultOptions] *)
Definition defaultOptions : TypedOptions :=
  {| types := DefaultTypes; autoadd := false |}.

End DefaultTypes.

(** The readme's example: a two-field class with a guard and a conversion
    from numbers, and a function class with one method on numbers and one
    on pairs. *)
Module Readme.

Import DefaultTypes.

Definition Pair : Type_ := TObj 11 true (Some "Pair").

(** [new Pair(a, b)] *)
Definition newPair (a b : Z) : value := VObject Pair [VNumber a; VNumber b].

(** [@guard() static isPair(a) { return a instanceof Pair; }] *)
Definition isPair : Guard := instanceOf Pair.

(** [@conversion() static fromNumber(a: number): Pair { return new Pair(a, 0); }] *)
Definition fromNumber : Conversion := fun a =>
  match a with
  | VNumber n => newPair n 0
  | _ => VObject Pair [a; VNumber 0]
  end.

(** The metadata on the constructors: the default types and [Pair]. *)
Definition host : Host :=
  {| META_GUARDS := fun t =>
       if decide (t = DefaultTypes) then Some guardMap
       else if decide (t = Pair)
       then Some [ {| guardKey := "isPair"; guardType := TUndefined; guardMethod := isPair |} ]
       else None;
     META_CONVERSIONS := fun t =>
       if decide (t = Pair)
       then Some [ {| conversionKey := "fromNumber"; itemFromType := Number;
                      itemToType := Pair; conversionMethod := fromNumber |} ]
       else None;
     intersect_undefined := Err RuntimeTypeError |}.

(** [number(a: number, b: number): number { return a * b; }] *)
Definition number : Method := fun args =>
  match args with
  | VNumber a :: VNumber b :: _ => VNumber (a * b)
  | _ => VUndefined
  end.

(** [pair(a: Pair, b: Pair): Pair { return a.times(b); }], where [times]
    combines the fields as
    [new Pair(re * b.re - im * b.im, re * b.im + im * b.re)]. *)
Definition pair : Method := fun args =>
  match args with
  | VObject _ [VNumber re; VNumber im] :: VObject _ [VNumber bre; VNumber bim] :: _ =>
      newPair (re * bre - im * bim) (re * bim + im * bre)
  | _ => VUndefined
  end.

(** The registry: [new Typed()] followed by [add(Pair)]. *)
Definition registry : result unit * State :=
  match newTyped host defaultOptions None None [] with
  | (Ok _, st) => add host [Pair] st
  | failed => failed
  end.

(** The [META_METHODS] metadata of the function class after its two
    [@signature()] decorators, and the heap with the arrays they made
    (the heap holds no array before). *)
Definition decorated : option SignatureMap * Heap :=
  let '(meta, h) := signature [] true (Some [Number; Number]) "number" None [] in
  signature [] true (Some [Pair; Pair]) "pair" meta h.

Definition Times (number pair : Method) : Target :=
  {| META_METHODS := decorated.1;
     member := fun key => if String.eqb key "number" then number else pair;
     targetName := "Times" |}.

(** The state in which [function(Times)] is called. *)
Definition ready : State := {| this := this registry.2; heap := decorated.2 |}.

(** A class with two methods on two numbers each, [first] above
    [second]. *)
Definition bothDecorated : option SignatureMap * Heap :=
  let '(meta, h) := signature [] true (Some [Number; Number]) "first" None [] in
  signature [] true (Some [Number; Number]) "second" meta h.

Definition Both : Target :=
  {| META_METHODS := bothDecorated.1;
     member := fun key =>
       if String.eqb key "first" then fun _ => VString "first"
       else fun _ => VString "second";
     targetName := "Both" |}.

Definition bothReady : State := {| this := this registry.2; heap := bothDecorated.2 |}.

(** A class with the method on numbers only. *)
Definition Sole : Target :=
  {| META_METHODS := (signature [] true (Some [Number; Number]) "number" None []).1;
     member := fun _ => number;
     targetName := "Sole" |}.

Definition soleReady : State :=
  {| this := this registry.2;
     heap := (signature [] true (Some [Number; Number]) "number" None []).2 |}.

(** A class with one method without parameters. *)
Definition Nullary : Target :=
  {| META_METHODS := (signature [] true (Some []) "zero" None []).1;
     member := fun _ _ => VNumber 0;
     targetName := "Nullary" |}.

(** A class whose method on pairs is declared with one array for both
    parameters: [const P = [Pair]; @signature(P, P) pair(a, b)]. *)
Definition Shared (pair : list value -> value) : Target :=
  {| META_METHODS := (signature [TypeArray 0; TypeArray 0] true None "pair" None [[Pair]]).1;
     member := fun _ => pair;
     targetName := "Shared" |}.

Definition sharedReady : State :=
  {| this := this registry.2;
     heap := (signature [TypeArray 0; TypeArray 0] true None "pair" None [[Pair]]).2 |}.

(** A class that names a type that was never added. *)
Definition Foo : Type_ := TObj 12 true (Some "Foo").

Definition Stranger : Target :=
  {| META_METHODS := (signature [] true (Some [Foo]) "s" None []).1;
     member := fun _ _ => VUndefined;
     targetName := "SN" |}.

Definition strangerReady : State :=
  {| this := this registry.2;
     heap := (signature [] true (Some [Foo]) "s" None []).2 |}.

(** The candidates that [function(Times)] builds. *)
Definition timesSequence
    : list ((list value -> bool) * ((list value -> value) * option (list value -> list value))) :=
  match (sequenceOf host (Times number pair) (default [] decorated.1) ready).1 with
  | Ok l => sequence l
  | Err _ => []
  end.

End Readme.

(** Calling what a compilation returned; the exception of a failed
    compilation is handed on. *)
Definition callOf (r : result FunctionProperties * State) (args : list value) : result value :=
  match r.1 with
  | Ok fn => call fn args
  | Err e => Err e
  end.

(** The value of a result, [d] for an exception. *)
Definition okOr {A : Type} (d : A) (r : result A) : A :=
  match r with
  | Ok a => a
  | Err _ => d
  end.

(** The function that a compilation returned; for a failed compilation,
    the function that throws its exception (so that [callOf r] is
    [call (compiled r)]). *)
Definition compiled (r : result FunctionProperties * State) : FunctionProperties :=
  match r.1 with
  | Ok fn => fn
  | Err e => {| call := fun _ => Err e; fnLength := 0; fnName := EmptyString |}
  end.

(** The signatures of a map with their keys, in the order in which
    [function] visits them. *)
Definition signaturesOf (map : SignatureMap) : list (string * list ref) :=
  entry ← map; (fun signature => (entry.1, signature)) <$> entry.2.

(** The parameters of all signatures of a map: the arrays that compiling
    the map works on. *)
Definition parametersOf (map : SignatureMap) : list ref :=
  entry ← signaturesOf map; entry.2.

(** The largest arity among signatures. *)
Definition maxArity (entries : list (string * list ref)) : nat :=
  foldr (fun entry m => Nat.max (length entry.2) m) 0 entries.

(** A candidate compiled from the signature [entry] of method [key]: a
    tuple guard over as many slots as the signature has parameters, the
    method of the target, and the applier of the slots' matchers. *)
Definition compiledFrom (target : Target) (entry : string * list ref)
    (c : (list value -> bool) * ((list value -> value) * option (list value -> list value)))
    : Prop :=
  exists (gs : list (value -> bool)) (ms : list (option (value -> value))),
    length gs = length entry.2 /\ length ms = length entry.2 /\
    c = (guardtypes.tuple gs, (member target entry.1, guardtypes.applier ms)).

(** The failures that mean "no candidate matched": the [TypeError] that
    [_makeFunction] throws itself, and the failure of [choose]. *)
Definition isNoMatch (e : exn) : bool :=
  match e with
  | TypeError message => bool_decide (message = "No alternatives were matched")
  | NoMatchOf _ => true
  | _ => false
  end.

(** The failure of a function of [count] candidates of largest arity
    [maxL] when no candidate matches: the special cases throw themselves,
    the general case leaves it to [choose]. *)
Definition noMatchOf (maxL : nat) (count : nat) (args : list value) : exn :=
  if (maxL =? 0) || (count <=? 2)
  then NoAlternatives
  else NoMatchOf (guardtypes.typeName <$> args).

(** A token is registered when the registry has guards for it. *)
Definition registered (T : Typed) (t : Type_) : Prop :=
  is_Some (weakGet (guards T) t).

(** Only the guards of the registry may differ. *)
Definition keeps (st st' : State) : Prop :=
  heap st' = heap st /\
  conversions (this st') = conversions (this st) /\
  options (this st') = options (this st).

(** The registry keeps its conversions and options, the arrays of the heap
    keep their elements. *)
Definition grows (st st' : State) : Prop :=
  conversions (this st') = conversions (this st) /\
  options (this st') = options (this st) /\
  forall r, deref (heap st) r ⊆ deref (heap st') r.

(** The outcome of visiting the parameter arrays [rs] from state [st]:
    on success [Pre] holds of the state, [Q] holds of every array visited
    and of every array it held of before; an exception satisfies [E]. *)
Definition visited {A : Type} (Pre : State -> Prop) (Q : State -> ref -> Prop)
    (E : exn -> Prop) (rs : list ref) (st : State) (res : result A) (st' : State) : Prop :=
  match res with
  | Ok _ => Pre st' /\ (forall r, r ∈ rs -> Q st' r) /\ (forall r', Q st r' -> Q st' r')
  | Err e => E e
  end.

(* ===================================================================== *)
(** ** What the decorator, the registry and a slot are specified by *)
(* ===================================================================== *)




(** What the decorators leave: every key of the map has a signature. *)
Definition declared (map : SignatureMap) : Prop :=
  map <> [] /\ forall entry, entry ∈ map -> entry.2 <> [].

(** [map[key] || ctor]: the type under which [_addTypes] registers the
    guard of an entry. *)
Definition effectiveType (ctor : Type_) (item : GuardItem) : Type_ :=
  if truthy (guardType item) then guardType item else ctor.

(** The guards that the metadata [items] of [ctor] give to the type [t]. *)
Definition guardsFor (ctor : Type_) (items : GuardMap) (t : Type_) : list Guard :=
  guardMethod <$> filter (fun item => effectiveType ctor item = t) items.

(** The guard that a registered type resolves to: the intersection of the
    guards registered for it. *)
Definition resolved (T : Typed) (t : Type_) : Guard :=
  guardtypes.intersect (default [] (weakGet (guards T) t)).

(** A conversion edge of the registry: [cm] is stored, in the map of
    conversions, among those that end at the object [toType]. *)
Definition edge (T : Typed) (toType : Type_) (cm : ConversionMethod) : Prop :=
  truthy toType = true /\
  exists cms, conversions T !! toType = Some cms /\ cm ∈ cms.

(** The types that conversion edges lead to the types of an array from,
    in any number of hops: what repeated compilation can add to it. *)
Inductive reaches (T : Typed) (types : list Type_) : Type_ -> Prop :=
| reaches_declared (t : Type_) : t ∈ types -> reaches T types t
| reaches_hop (toType : Type_) (cm : ConversionMethod) :
    reaches T types toType -> edge T toType cm -> reaches T types (fromType cm).

(** One hop of conversion: [accepted] is [declared] followed by the source
    types of the edges [added], each of which ends at a declared type and
    starts from a type that is not declared; no source type is added
    twice, and the source type of every edge that ends at a declared type
    is accepted. *)
Definition oneHop (T : Typed) (declared accepted : list Type_)
    (added : list ConversionMethod) : Prop :=
  accepted = declared ++ (fromType <$> added) /\
  NoDup (fromType <$> added) /\
  (forall cm, cm ∈ added ->
     (fromType cm ∉ declared) /\
     exists toType, toType ∈ declared /\ edge T toType cm) /\
  (forall toType cm, toType ∈ declared -> edge T toType cm -> fromType cm ∈ accepted).

(** The registry after is the registry before and more: the heap and the
    options are the same, and every list of guards or of conversions that
    was registered is a prefix of what is registered now. *)
Definition extends (st st' : State) : Prop :=
  heap st' = heap st /\
  options (this st') = options (this st) /\
  (forall t gs, weakGet (guards (this st)) t = Some gs ->
     exists more, weakGet (guards (this st')) t = Some (gs ++ more)) /\
  (forall t cs, weakGet (conversions (this st)) t = Some cs ->
     exists more, weakGet (conversions (this st')) t = Some (cs ++ more)).

(** The conversion that [_addConversions] registers for an entry. *)
Definition conversionOf (item : ConversionItem) : ConversionMethod :=
  {| fromType := itemFromType item; convert := conversionMethod item |}.

(** The conversions that the metadata [items] give to the type [t]. *)
Definition conversionsFor (items : ConversionMap) (t : Type_) : list ConversionMethod :=
  conversionOf <$> filter (fun item => itemToType item = t) items.

(** The conversions that [_convertParamToUnion] meets for an array, in the
    order in which it meets them. *)
Definition conversionsInto (T : Typed) (types : list Type_) : list ConversionMethod :=
  types ≫= conversionsTo T.

(** The first conversion of a list that starts from [t]. *)
Definition firstFrom (cms : list ConversionMethod) (t : Type_) : option ConversionMethod :=
  snd <$> list_find (fun cm => fromType cm = t) cms.

(** More states and classes to run the registry on. *)
Module Samples.

Import DefaultTypes Readme.

(** [new Typed()], before [add(Pair)]. *)
Definition fresh : State := (newTyped host defaultOptions None None []).2.


(** A class whose method names [null] as the type of its parameter:
    [@signature(null) n(a)]. *)
Definition Nullish : Target :=
  {| META_METHODS := (signature [OneType TNull] true None "n" None []).1;
     member := fun _ _ => VUndefined;
     targetName := "Nullish" |}.

Definition nullishReady : State :=
  {| this := this registry.2;
     heap := (signature [OneType TNull] true None "n" None []).2 |}.

(** A class with two conversions in a chain, from strings to numbers and
    from numbers to pairs:
    [@conversion() static fromNumber(a: number): Pair] and
    [@conversion() static parse(s: string): number { return s.length; }]. *)
Definition parse : Conversion := fun s =>
  match s with
  | VString text => VNumber (Z.of_nat (String.length text))
  | _ => VUndefined
  end.

Definition chainHost : Host :=
  {| META_GUARDS := META_GUARDS host;
     META_CONVERSIONS := fun t =>
       if decide (t = Pair)
       then Some [ {| conversionKey := "fromNumber"; itemFromType := Number;
                      itemToType := Pair; conversionMethod := fromNumber |};
                   {| conversionKey := "parse"; itemFromType := String_;
                      itemToType := Number; conversionMethod := parse |} ]
       else None;
     intersect_undefined := Err RuntimeTypeError |}.

(** [new Typed()] followed by [add(Pair)], for this class. *)
Definition chain : result unit * State :=
  match newTyped chainHost defaultOptions None None [] with
  | (Ok _, st) => add chainHost [Pair] st
  | failed => failed
  end.

(** A function class whose one signature is given the caller's own array:
    [const P = [Pair]; class Norm { @signature(P) norm(a) { ... } }].  The
    array [P] is at address [0]. *)
Definition normDecorated : option SignatureMap * Heap :=
  signature [TypeArray 0] true None "norm" None [[Pair]].

Definition Norm : Target :=
  {| META_METHODS := normDecorated.1;
     member := fun _ _ => VUndefined;
     targetName := "Norm" |}.

Definition normReady : State := {| this := this chain.2; heap := normDecorated.2 |}.

(** A class with a method named by an array index, decorated after a
    method with a name: [class K { @signature() b(x: number) {}
    @signature() 1(x: number) {} }]. *)
Definition indexDecorated : option SignatureMap * Heap :=
  let '(meta, h) := signature [] true (Some [Number]) "b" None [] in
  signature [] true (Some [Number]) "1" meta h.

Definition Indexed : Target :=
  {| META_METHODS := indexDecorated.1;
     member := fun key _ => VString key;
     targetName := "K" |}.

Definition indexedReady : State :=
  {| this := this registry.2; heap := indexDecorated.2 |}.

End Samples.

(* ===================================================================== *)
(** * Properties *)
(* ===================================================================== *)

(* ===================================================================== *)
(** ** The guard combinators *)
(* ===================================================================== *)

Section Combinators.

Import guardtypes.

Lemma tuple_length (gs : list Guard) (args : list value) :
  tuple gs args = true -> length args = length gs.
Proof.
  revert args. induction gs as [|g gs IH]; intros [|a args]; simpl; try done.
  intros [_ H]%andb_prop. by rewrite (IH _ H).
Qed.

Lemma tuple_spec (gs : list Guard) (args : list value) :
  tuple gs args = true <->
  length args = length gs /\
  forall i g a, gs !! i = Some g -> args !! i = Some a -> g a = true.
Proof.
  revert args. induction gs as [|g gs IH]; intros [|a args]; simpl.
  - split; [|done]. intros _. split; [done|]. by intros i g a.
  - split; [done|]. by intros [? _].
  - split; [done|]. by intros [? _].
  - rewrite andb_true_iff, IH. split.
    + intros (Hg & Hlen & Hall). split; [by rewrite Hlen|].
      intros [|i] g' a'; simpl; [by intros [= <-] [= <-]|]. apply Hall.
    + intros (Hlen & Hall). split; [exact (Hall 0 g a eq_refl eq_refl)|].
      split; [by injection Hlen|].
      intros i g' a'. exact (Hall (S i) g' a').
Qed.

Lemma tuple_nil (args : list value) : tuple [] args = true <-> args = [].
Proof. destruct args; simpl; split; done. Qed.

Lemma applyAll_nil (ms : list (option Conversion)) : applyAll ms [] = [].
Proof. by destruct ms. Qed.

Lemma applyAll_length (ms : list (option Conversion)) (args : list value) :
  length (applyAll ms args) = length args.
Proof.
  revert args. induction ms as [|m ms IH]; intros [|a args]; simpl; try done.
  by rewrite IH.
Qed.

(** Behind the union guard of a slot the matcher finds a converter: the
    first guard that accepts the value decides. *)
Lemma matcher_union (gs : list Guard) (cs : list Conversion) (x : value) :
  length gs = length cs -> union gs x = true ->
  exists i g c, gs !! i = Some g /\ cs !! i = Some c /\ g x = true /\
    (forall j g', j < i -> gs !! j = Some g' -> g' x = false) /\
    matcher gs cs x = c x.
Proof.
  revert cs. induction gs as [|g gs IH]; intros [|c cs]; simpl; try done.
  intros [= Hlen]. destruct (g x) eqn:Hg; simpl.
  - intros _. exists 0, g, c. repeat split; try done. lia.
  - intros Hu. destruct (IH cs Hlen Hu) as (i & g' & c' & ? & ? & ? & Hfirst & ?).
    exists (S i), g', c'. repeat split; try done.
    intros [|j] g''; simpl; [by intros _ [= <-]|]. intros ?. apply Hfirst. lia.
Qed.

(** [choose] returns the value of the first entry whose guard accepts. *)
Lemma choose_Ok {T : Type} (sequence : list (ArgsGuard * T)) (args : list value) (v : T) :
  choose sequence args = Ok v <->
  exists i g, sequence !! i = Some (g, v) /\ g args = true /\
    forall j c, j < i -> sequence !! j = Some c -> c.1 args = false.
Proof.
  unfold choose. destruct (list_find _ _) as [[i [g w]]|] eqn:Hfind.
  - apply list_find_Some in Hfind as (Hi & Hg & Hfirst). simpl in Hg. split.
    + intros [= <-]. exists i, g. repeat split; try done.
      intros j c Hj Hc. specialize (Hfirst j c Hc Hj). by destruct (c.1 args).
    + intros (i' & g' & Hi' & Hg' & Hfirst'). f_equal.
      destruct (Nat.lt_trichotomy i i') as [Hlt|[->|Hlt]].
      * specialize (Hfirst' i _ Hlt Hi). simpl in *. congruence.
      * rewrite Hi in Hi'. by injection Hi'.
      * specialize (Hfirst i' _ Hi' Hlt). simpl in *. congruence.
  - apply list_find_None in Hfind. split; [done|].
    intros (i & g & Hi & Hg & _).
    rewrite Forall_forall in Hfind. apply list_elem_of_lookup_2 in Hi.
    by specialize (Hfind _ Hi).
Qed.

Lemma choose_Err {T : Type} (sequence : list (ArgsGuard * T)) (args : list value) (e : exn) :
  choose sequence args = Err e <->
  e = NoMatchOf (typeName <$> args) /\
  forall c, c ∈ sequence -> c.1 args = false.
Proof.
  unfold choose. destruct (list_find _ _) as [[i [g w]]|] eqn:Hfind.
  - apply list_find_Some in Hfind as (Hi & Hg & _). split; [done|].
    intros [_ Hall]. apply list_elem_of_lookup_2 in Hi.
    specialize (Hall _ Hi). simpl in *. congruence.
  - apply list_find_None in Hfind. rewrite Forall_forall in Hfind. split.
    + intros [= <-]. split; [done|]. intros c Hc.
      specialize (Hfind c Hc). by destruct (c.1 args).
    + by intros [-> _].
Qed.

End Combinators.

(* ===================================================================== *)
(** ** The expansion of a declared type array *)
(* ===================================================================== *)

Section Expansion.

Variable T : Typed.

Lemma notIndexOf_true (ts : list Type_) (t : Type_) : notIndexOf ts t = true <-> t ∉ ts.
Proof. unfold notIndexOf. rewrite negb_true_iff, bool_decide_eq_false. done. Qed.

Lemma notIndexOf_false (ts : list Type_) (t : Type_) : notIndexOf ts t = false <-> t ∈ ts.
Proof. unfold notIndexOf. rewrite negb_false_iff, bool_decide_eq_true. done. Qed.

(** The inner loop appends, for a sublist [added] of the conversions, their
    source types and converters, in step. *)
Lemma pushConversion_spec (cms : list ConversionMethod) :
  forall (ts : list Type_) (cs : list Conversion),
  exists added : list ConversionMethod,
    foldl pushConversion (ts, cs) cms = (ts ++ (fromType <$> added), cs ++ (convert <$> added)) /\
    (forall cm, cm ∈ added -> cm ∈ cms /\ (fromType cm ∉ ts)) /\
    (forall cm, cm ∈ cms -> fromType cm ∈ ts ++ (fromType <$> added)) /\
    NoDup (fromType <$> added).
Proof.
  induction cms as [|cm cms IH]; intros ts cs; simpl.
  - exists []. simpl. rewrite !app_nil_r.
    split; [done|]. split; [by intros cm ?%elem_of_nil|].
    split; [by intros cm ?%elem_of_nil|]. constructor.
  - destruct (notIndexOf ts (fromType cm)) eqn:Hidx.
    + apply notIndexOf_true in Hidx.
      destruct (IH (ts ++ [fromType cm]) (cs ++ [convert cm]))
        as (added & Heq & Hsub & Hall & Hnd).
      exists (cm :: added). rewrite Heq. simpl. rewrite <- !app_assoc. simpl.
      split; [done|]. split; [|split].
      * intros cm' [->|H]%elem_of_cons; [split; [left|done]|].
        apply Hsub in H as [? H]. split; [by right|].
        intros ?. apply H. apply elem_of_app. by left.
      * intros cm' [->|H]%elem_of_cons.
        -- apply elem_of_app. right. left.
        -- specialize (Hall _ H). by rewrite <- app_assoc in Hall.
      * constructor; [|done]. intros (cm' & Hf & Hin)%list_elem_of_fmap.
        apply Hsub in Hin as [_ Hin]. apply Hin. rewrite <- Hf.
        apply elem_of_app. right. left.
    + apply notIndexOf_false in Hidx.
      destruct (IH ts cs) as (added & Heq & Hsub & Hall & Hnd).
      exists added. rewrite Heq. split; [done|]. split; [|split; [|done]].
      * intros cm' H. apply Hsub in H as [? ?]. split; [by right|done].
      * intros cm' [->|H]%elem_of_cons; [|by apply Hall].
        apply elem_of_app. by left.
Qed.

(** The two nested loops are one loop over all conversions that end at a
    type of the array as it was at the start. *)
Lemma expand_flat (types : list Type_) :
  expand T types =
  foldl pushConversion (types, (fun _ => I) <$> types) (types ≫= conversionsTo T).
Proof.
  unfold expand. generalize (types, (fun _ : Type_ => I) <$> types).
  induction types as [|t types IH]; intros acc; simpl; [done|].
  rewrite foldl_app. apply IH.
Qed.

Lemma expand_spec (types accepted : list Type_) (converters : list Conversion) :
  expand T types = (accepted, converters) ->
  exists added : list ConversionMethod,
    accepted = types ++ (fromType <$> added) /\
    converters = ((fun _ => I) <$> types) ++ (convert <$> added) /\
    (forall cm, cm ∈ added ->
       (fromType cm ∉ types) /\
       exists toType, toType ∈ types /\ cm ∈ conversionsTo T toType) /\
    (forall toType cm, toType ∈ types -> cm ∈ conversionsTo T toType ->
       fromType cm ∈ accepted) /\
    NoDup (fromType <$> added).
Proof.
  rewrite expand_flat.
  destruct (pushConversion_spec (types ≫= conversionsTo T) types ((fun _ => I) <$> types))
    as (added & Heq & Hsub & Hall & Hnd).
  rewrite Heq. intros [= <- <-]. exists added.
  split; [done|]. split; [done|]. split; [|split; [|done]].
  - intros cm H. apply Hsub in H as [(toType & ? & ?)%list_elem_of_bind ?].
    split; [done|]. by exists toType.
  - intros toType cm Ht Hcm. apply Hall. apply list_elem_of_bind. by exists toType.
Qed.

Lemma expand_fst_length (types : list Type_) :
  length (expand T types).1 = length (expand T types).2.
Proof.
  destruct (expand T types) as [accepted converters] eqn:Heq.
  apply expand_spec in Heq as (added & -> & -> & _). simpl.
  by rewrite !length_app, !length_fmap.
Qed.

(** Membership in the expanded array: the declared types and one hop. *)
Lemma elem_of_expand (types : list Type_) (t : Type_) :
  t ∈ (expand T types).1 <->
  t ∈ types \/ exists toType cm,
    toType ∈ types /\ cm ∈ conversionsTo T toType /\ fromType cm = t.
Proof.
  destruct (expand T types) as [accepted converters] eqn:Heq.
  apply expand_spec in Heq as (added & -> & -> & Hsub & Hall & _). simpl. split.
  - intros [?|(cm & -> & Hcm)%list_elem_of_fmap]%elem_of_app; [by left|right].
    apply Hsub in Hcm as [_ (toType & ? & ?)]. by exists toType, cm.
  - intros [?|(toType & cm & ? & ? & <-)]; [apply elem_of_app; by left|].
    by apply (Hall toType).
Qed.

(** The expansion grows with the array. *)
Lemma expand_mono (types types' : list Type_) :
  types ⊆ types' -> (expand T types).1 ⊆ (expand T types').1.
Proof.
  intros Hsub t. rewrite !elem_of_expand.
  intros [?|(toType & cm & ? & ? & ?)]; [left; by apply Hsub|right].
  exists toType, cm. split; [by apply Hsub|done].
Qed.

Lemma expand_incl (types : list Type_) : types ⊆ (expand T types).1.
Proof. intros t ?. apply elem_of_expand. by left. Qed.

End Expansion.

(* ===================================================================== *)
(** ** Running the methods: sequencing and loops *)
(* ===================================================================== *)

Section Running.

Context {A B : Type}.

Lemma bind_run (m : M A) (k : A -> M B) (st : State) :
  (m ≫= k) st =
  match m st with
  | (Ok a, st') => k a st'
  | (Err e, st') => (Err e, st')
  end.
Proof. reflexivity. Qed.

Lemma bind_Ok (m : M A) (k : A -> M B) (st st' : State) (b : B) :
  (m ≫= k) st = (Ok b, st') ->
  exists a st1, m st = (Ok a, st1) /\ k a st1 = (Ok b, st').
Proof.
  rewrite bind_run. destruct (m st) as [[a|e] st1]; [|done].
  intros ?. by exists a, st1.
Qed.

Lemma bind_Err (m : M A) (k : A -> M B) (st st' : State) (e : exn) :
  (m ≫= k) st = (Err e, st') ->
  m st = (Err e, st') \/ exists a st1, m st = (Ok a, st1) /\ k a st1 = (Err e, st').
Proof.
  rewrite bind_run. destruct (m st) as [[a|e'] st1]; [|intros [= -> ->]; by left].
  intros ?. right. by exists a, st1.
Qed.

Lemma mapM_cons (f : A -> M B) (a : A) (l : list A) (st : State) :
  mapM f (a :: l) st =
  match f a st with
  | (Ok b, st1) =>
      match mapM f l st1 with
      | (Ok bs, st2) => (Ok (b :: bs), st2)
      | (Err e, st2) => (Err e, st2)
      end
  | (Err e, st1) => (Err e, st1)
  end.
Proof. reflexivity. Qed.

Lemma foldM_cons (f : B -> A -> M B) (acc : B) (a : A) (l : list A) (st : State) :
  foldM f acc (a :: l) st =
  match f acc a st with
  | (Ok acc', st1) => foldM f acc' l st1
  | (Err e, st1) => (Err e, st1)
  end.
Proof. reflexivity. Qed.

Lemma forEach_cons (f : A -> M unit) (a : A) (l : list A) (st : State) :
  forEach f (a :: l) st =
  match f a st with
  | (Ok _, st1) => forEach f l st1
  | (Err e, st1) => (Err e, st1)
  end.
Proof. reflexivity. Qed.

(** A relation between the state before and the state after that every
    round of a loop keeps is kept by the loop. *)
Section Invariant.

Variable R : State -> State -> Prop.
Hypothesis R_refl : forall st, R st st.
Hypothesis R_trans : forall st1 st2 st3, R st1 st2 -> R st2 st3 -> R st1 st3.

Lemma bind_inv (m : M A) (k : A -> M B) :
  (forall st res st', m st = (res, st') -> R st st') ->
  (forall a st res st', k a st = (res, st') -> R st st') ->
  forall st res st', (m ≫= k) st = (res, st') -> R st st'.
Proof.
  intros Hm Hk st res st'. rewrite bind_run.
  destruct (m st) as [[a|e] st1] eqn:Hrun.
  - intros ?. eapply R_trans; [by eapply Hm|by eapply Hk].
  - intros [= <- <-]. by eapply Hm.
Qed.

Lemma mapM_inv (f : A -> M B) (l : list A) :
  (forall a st res st', a ∈ l -> f a st = (res, st') -> R st st') ->
  forall st res st', mapM f l st = (res, st') -> R st st'.
Proof.
  induction l as [|a l IH]; intros Hf st res st'.
  - intros [= <- <-]. apply R_refl.
  - rewrite mapM_cons. destruct (f a st) as [[b|e] st1] eqn:Hrun.
    + assert (R st st1) by (eapply Hf; [left|done]).
      assert (forall res st2, mapM f l st1 = (res, st2) -> R st1 st2) as Hrest.
      { intros ? ?. apply IH. intros ? ? ? ? ?. apply Hf. by right. }
      destruct (mapM f l st1) as [[bs|e] st2].
      * intros [= <- <-]. eapply R_trans; [done|]. by eapply Hrest.
      * intros [= <- <-]. eapply R_trans; [done|]. by eapply Hrest.
    + intros [= <- <-]. eapply Hf; [left|done].
Qed.

Lemma foldM_inv (f : B -> A -> M B) (l : list A) :
  (forall acc a st res st', a ∈ l -> f acc a st = (res, st') -> R st st') ->
  forall acc st res st', foldM f acc l st = (res, st') -> R st st'.
Proof.
  induction l as [|a l IH]; intros Hf acc st res st'.
  - intros [= <- <-]. apply R_refl.
  - rewrite foldM_cons. destruct (f acc a st) as [[b|e] st1] eqn:Hrun.
    + intros ?. eapply R_trans.
      * eapply Hf; [left|done].
      * eapply IH; [|done]. intros ? ? ? ? ? ?. apply Hf. by right.
    + intros [= <- <-]. eapply Hf; [left|done].
Qed.

Lemma forEach_inv (f : A -> M unit) (l : list A) :
  (forall a st res st', a ∈ l -> f a st = (res, st') -> R st st') ->
  forall st res st', forEach f l st = (res, st') -> R st st'.
Proof.
  induction l as [|a l IH]; intros Hf st res st'.
  - intros [= <- <-]. apply R_refl.
  - rewrite forEach_cons. destruct (f a st) as [[[]|e] st1] eqn:Hrun.
    + intros ?. eapply R_trans.
      * eapply Hf; [left|done].
      * eapply IH; [|done]. intros ? ? ? ? ?. apply Hf. by right.
    + intros [= <- <-]. eapply Hf; [left|done].
Qed.

End Invariant.

Lemma mapM_length (f : A -> M B) (l : list A) (st st' : State) (bs : list B) :
  mapM f l st = (Ok bs, st') -> length bs = length l.
Proof.
  revert st bs. induction l as [|a l IH]; intros st bs.
  - by intros [= <- _].
  - rewrite mapM_cons. destruct (f a st) as [[b|e] st1]; [|done].
    destruct (mapM f l st1) as [[bs'|e] st2] eqn:Hrest; [|done].
    intros [= <- <-]. simpl. by rewrite (IH _ _ Hrest).
Qed.

End Running.

(* ===================================================================== *)
(** ** What compiling does to the state *)
(* ===================================================================== *)

Lemma keeps_refl st : keeps st st.
Proof. done. Qed.

Lemma keeps_trans st1 st2 st3 : keeps st1 st2 -> keeps st2 st3 -> keeps st1 st3.
Proof. intros (? & ? & ?) (? & ? & ?). repeat split; congruence. Qed.

Lemma grows_refl st : grows st st.
Proof. done. Qed.

Lemma grows_trans st1 st2 st3 : grows st1 st2 -> grows st2 st3 -> grows st1 st3.
Proof.
  intros (? & ? & H12) (? & ? & H23). repeat split; try congruence.
  intros r. etrans; [apply H12|apply H23].
Qed.

Lemma keeps_grows st st' : keeps st st' -> grows st st'.
Proof. intros (Hh & ? & ?). repeat split; try done. intros r. by rewrite Hh. Qed.

Lemma expand_conversions (T T' : Typed) (types : list Type_) :
  conversions T' = conversions T -> expand T' types = expand T types.
Proof.
  intros Hc. unfold expand.
  assert (pushConversions T' = pushConversions T) as ->; [|done].
  unfold pushConversions, conversionsTo. by rewrite Hc.
Qed.

Lemma deref_insert (h : Heap) (r r' : ref) (ts : list Type_) :
  deref (<[r:=ts]> h) r' =
  if decide (r' = r /\ r < length h) then ts else deref h r'.
Proof.
  unfold deref. case_decide as Hd.
  - destruct Hd as [-> Hlt]. by rewrite list_lookup_insert_eq.
  - destruct (decide (r = r')) as [<-|Hne]; [|by rewrite list_lookup_insert_ne].
    rewrite list_insert_ge; [done|]. apply Nat.nlt_ge. naive_solver.
Qed.

Section Compilation.

Variable host : Host.

Local Hint Resolve keeps_refl keeps_trans : core.

Lemma setGuards_keeps g st res st' : setGuards g st = (res, st') -> keeps st st'.
Proof. by intros [= <- <-]. Qed.

Lemma liftResult_keeps {A} (r : result A) st res st' :
  liftResult r st = (res, st') -> keeps st st'.
Proof. by intros [= <- <-]. Qed.

Lemma _addTypes_keeps ctor st res st' :
  _addTypes host ctor st = (res, st') -> keeps st st'.
Proof.
  unfold _addTypes. rewrite bind_run. unfold liftResult at 1.
  destruct (getMetadata _ _) as [[map|]|e]; [| |by intros [= <- <-]].
  - apply (forEach_inv keeps keeps_refl keeps_trans). intros item st1 res1 st1' _.
    rewrite bind_run. unfold getThis at 1. rewrite bind_run. unfold liftResult at 1.
    destruct (weakSet _ _ _) as [g|e]; [apply setGuards_keeps|by intros [= <- <-]].
  - rewrite bind_run. unfold getThis at 1.
    destruct (_ && _); [|by intros [= <- <-]].
    rewrite bind_run. unfold liftResult at 1.
    destruct (weakSet _ _ _) as [g|e]; [apply setGuards_keeps|by intros [= <- <-]].
Qed.

Lemma _getGuard_keeps type st res st' :
  _getGuard host type st = (res, st') -> keeps st st'.
Proof.
  unfold _getGuard. rewrite bind_run. unfold getThis at 1.
  apply (bind_inv keeps keeps_trans).
  - intros st1 res1 st1'.
    destruct (negb (weakHas _ _)); [|by intros [= <- <-]].
    destruct (negb (autoadd _)); [by intros [= <- <-]|apply _addTypes_keeps].
  - intros [] st1 res1 st1'. rewrite bind_run. unfold getThis at 1.
    destruct (weakGet _ _); by intros [= <- <-].
Qed.

(** With auto-registration off, [_getGuard] reads the registry and leaves
    the state as it is. *)
Lemma _getGuard_strict type st :
  autoadd (options (this st)) = false ->
  _getGuard host type st =
  match weakGet (guards (this st)) type with
  | Some gs => (Ok (guardtypes.intersect gs), st)
  | None => (Err (UnknownType type), st)
  end.
Proof.
  intros Hauto. unfold _getGuard. rewrite bind_run. unfold getThis at 1.
  rewrite bind_run. unfold weakHas.
  destruct (weakGet (guards (this st)) type) as [gs|] eqn:Hget.
  - rewrite bool_decide_eq_true_2 by eauto. simpl.
    rewrite bind_run. unfold getThis. by rewrite Hget.
  - rewrite bool_decide_eq_false_2 by (by intros [? ?]). simpl.
    by rewrite Hauto.
Qed.

Lemma mapM_getGuard_strict (ts : list Type_) st :
  autoadd (options (this st)) = false ->
  exists res, mapM (_getGuard host) ts st = (res, st) /\
    match res with
    | Ok gs => length gs = length ts /\ Forall (registered (this st)) ts
    | Err e => exists t, t ∈ ts /\ ~ registered (this st) t /\ e = UnknownType t
    end.
Proof.
  intros Hauto. induction ts as [|t ts IH].
  - exists (Ok []). by repeat split.
  - rewrite mapM_cons, _getGuard_strict by done.
    destruct (weakGet (guards (this st)) t) as [gs|] eqn:Hget.
    + destruct IH as (res & -> & Hres). destruct res as [gs'|e].
      * exists (Ok (guardtypes.intersect gs :: gs')). split; [done|].
        destruct Hres as [Hlen Hall]. split; [simpl; by rewrite Hlen|].
        constructor; [|done]. unfold registered. by rewrite Hget.
      * exists (Err e). split; [done|].
        destruct Hres as (t' & ? & ? & ?). exists t'. split; [by right|done].
    + exists (Err (UnknownType t)). split; [done|]. exists t.
      split; [left|]. split; [|done]. unfold registered. rewrite Hget. by intros [? ?].
Qed.

(** [_convertParamToUnion], step by step: the pushes, then the guards. *)
Lemma _convertParamToUnion_run (r : ref) (st : State) :
  _convertParamToUnion host r st =
  let declared := deref (heap st) r in
  let expanded := (expand (this st) declared).1 in
  let converters := (expand (this st) declared).2 in
  match mapM (_getGuard host) expanded
          {| this := this st; heap := <[r:=expanded]> (heap st) |} with
  | (Ok gs, st') =>
      (Ok (guardtypes.union gs,
           if length declared =? length expanded then None
           else Some (guardtypes.matcher gs converters)), st')
  | (Err e, st') => (Err e, st')
  end.
Proof.
  unfold _convertParamToUnion. rewrite bind_run. unfold getThis at 1.
  rewrite bind_run. unfold getHeap at 1. simpl.
  destruct (expand (this st) (deref (heap st) r)) as [expanded converters]. simpl.
  rewrite bind_run. unfold writeArray at 1. rewrite bind_run.
  destruct (mapM _ _ _) as [[gs|e] st']; [|done].
  by destruct (_ =? _).
Qed.

(** Whatever the outcome, the array at [r] has been expanded in place,
    and no other array has changed. *)
Lemma _convertParamToUnion_heap (r : ref) st res st' :
  _convertParamToUnion host r st = (res, st') ->
  heap st' = <[r:=(expand (this st) (deref (heap st) r)).1]> (heap st) /\
  conversions (this st') = conversions (this st) /\
  options (this st') = options (this st).
Proof.
  rewrite _convertParamToUnion_run. simpl.
  destruct (mapM _ _ _) as [res1 st1] eqn:Hmap.
  assert (keeps {| this := this st;
                   heap := <[r:=(expand (this st) (deref (heap st) r)).1]> (heap st) |} st1)
    as (Hh & Hc & Ho).
  { revert Hmap. apply (mapM_inv keeps keeps_refl keeps_trans).
    intros ? ? ? ? _. apply _getGuard_keeps. }
  simpl in *. destruct res1; by intros [= <- <-].
Qed.

Lemma deref_expanded (r : ref) (h : Heap) (T : Typed) :
  deref (<[r:=(expand T (deref h r)).1]> h) r = (expand T (deref h r)).1.
Proof.
  rewrite deref_insert. case_decide as Hd; [done|].
  assert (deref h r = []) as ->; [|done].
  unfold deref. rewrite lookup_ge_None_2; [done|].
  apply Nat.nlt_ge. naive_solver.
Qed.

Lemma _convertParamToUnion_grows (r : ref) st res st' :
  _convertParamToUnion host r st = (res, st') -> grows st st'.
Proof.
  intros H. apply _convertParamToUnion_heap in H as (Hh & Hc & Ho).
  repeat split; try done.
  intros r'. rewrite Hh, deref_insert. case_decide as Hd; [|done].
  destruct Hd as [-> _]. apply expand_incl.
Qed.

End Compilation.

(* ===================================================================== *)
(** ** The candidates of a compiled function *)
(* ===================================================================== *)

Section Candidates.

Variable host : Host.

Import guardtypes.

Lemma _getSignatureGuard_shape (params : list ref) st g c st' :
  _getSignatureGuard host params st = (Ok (g, c), st') ->
  exists gms, mapM (_convertParamToUnion host) params st = (Ok gms, st') /\
    length gms = length params /\
    g = tuple gms.*1 /\ c = applier gms.*2.
Proof.
  unfold _getSignatureGuard. intros (gms & st1 & Hmap & [= <- <- <-])%bind_Ok.
  exists gms. split; [done|]. split; [by eapply mapM_length|done].
Qed.

Lemma eachSignature_Ok (method : list value -> value) l (params : list ref) st l' st' :
  eachSignature host method l params st = (Ok l', st') ->
  exists g c, _getSignatureGuard host params st = (Ok (g, c), st') /\
    l' = {| maxLength := Nat.max (maxLength l) (length params);
            minLength := minInfinity (minLength l) (length params);
            sequence := sequence l ++ [(g, (method, c))] |}.
Proof.
  unfold eachSignature. intros ([g c] & st1 & Hsig & [= <- <-])%bind_Ok.
  by exists g, c.
Qed.

Lemma maxArity_cons (e : string * list ref) (l : list (string * list ref)) :
  maxArity (e :: l) = Nat.max (length e.2) (maxArity l).
Proof. reflexivity. Qed.

Lemma maxArity_app (l1 l2 : list (string * list ref)) :
  maxArity (l1 ++ l2) = Nat.max (maxArity l1) (maxArity l2).
Proof.
  induction l1 as [|e l1 IH]; [done|].
  rewrite <- app_comm_cons, !maxArity_cons, IH. lia.
Qed.

Lemma maxArity_le (entries : list (string * list ref)) (entry : string * list ref) :
  entry ∈ entries -> length entry.2 <= maxArity entries.
Proof.
  induction 1 as [|? ? ? ? IH]; rewrite maxArity_cons; [lia|]. etrans; [apply IH|lia].
Qed.

Lemma foldM_eachSignature target key (sigs : list (list ref)) :
  forall l st l' st',
  foldM (eachSignature host (member target key)) l sigs st = (Ok l', st') ->
  exists new,
    sequence l' = sequence l ++ new /\
    Forall2 (compiledFrom target) ((fun sig => (key, sig)) <$> sigs) new /\
    maxLength l' = Nat.max (maxLength l) (maxArity ((fun sig => (key, sig)) <$> sigs)).
Proof.
  induction sigs as [|sig sigs IH]; intros l st l' st'.
  - intros [= <- <-]. exists []. rewrite app_nil_r. simpl.
    split; [done|]. split; [constructor|lia].
  - rewrite foldM_cons.
    destruct (eachSignature _ _ _ _ _) as [[l1|e] st1] eqn:Hone; [|done].
    apply eachSignature_Ok in Hone as (g & c & Hsig & ->).
    apply _getSignatureGuard_shape in Hsig as (gms & _ & Hlen & -> & ->).
    intros (new & Hseq & Hall & Hmax)%IH. cbn [sequence maxLength] in *.
    exists ((tuple gms.*1, (member target key, applier gms.*2)) :: new).
    split; [by rewrite Hseq, <- app_assoc|].
    rewrite fmap_cons. split; [|rewrite maxArity_cons; simpl; lia].
    constructor; [|done]. exists gms.*1, gms.*2. by rewrite !length_fmap.
Qed.

Lemma sequenceOf_shape target (map : list (string * list (list ref))) :
  forall l st l' st',
  foldM (eachKey host target) l map st = (Ok l', st') ->
  exists new,
    sequence l' = sequence l ++ new /\
    Forall2 (compiledFrom target) (signaturesOf map) new /\
    maxLength l' = Nat.max (maxLength l) (maxArity (signaturesOf map)).
Proof.
  induction map as [|[key sigs] map IH]; intros l st l' st'.
  - intros [= <- <-]. exists []. rewrite app_nil_r.
    split; [done|]. split; [constructor|]. simpl. lia.
  - rewrite foldM_cons. unfold eachKey at 1.
    destruct (foldM (eachSignature _ _) _ _ _) as [[l1|e] st1] eqn:Hone; [|done].
    apply foldM_eachSignature in Hone as (new1 & Hseq1 & Hall1 & Hmax1).
    intros (new & Hseq & Hall & Hmax)%IH.
    exists (new1 ++ new). split; [by rewrite Hseq, Hseq1, <- app_assoc|].
    change (signaturesOf ((key, sigs) :: map))
      with (((fun sig => (key, sig)) <$> sigs) ++ signaturesOf map).
    split; [by apply Forall2_app|]. rewrite maxArity_app. lia.
Qed.

(** What a successful [function] is made of. *)
Lemma function_Ok target st fn st' :
  function_ host target st = (Ok fn, st') ->
  exists map l,
    META_METHODS target = Some map /\
    sequenceOf host target map st = (Ok l, st') /\
    _makeFunction (sequence l) (minLength l) (maxLength l) = Ok (call fn) /\
    fnLength fn = maxLength l /\
    Forall2 (compiledFrom target) (signaturesOf map) (sequence l) /\
    maxLength l = maxArity (signaturesOf map).
Proof.
  unfold function_. destruct (META_METHODS target) as [map|]; [|done].
  change (length map <? 0) with false. cbv iota.
  intros (l & st1 & Hseq & (f & st2 & Hmake & [= <- <-])%bind_Ok)%bind_Ok.
  unfold liftResult in Hmake. injection Hmake as Hmake ->.
  exists map, l. simpl. repeat split; try done.
  - apply sequenceOf_shape in Hseq as (new & -> & ? & _). done.
  - apply sequenceOf_shape in Hseq as (new & _ & _ & ->). simpl. lia.
Qed.

End Candidates.

(* ===================================================================== *)
(** ** The function that [_makeFunction] returns *)
(* ===================================================================== *)

Section Dispatch.

Import guardtypes.

Lemma choose_cons {T : Type} (g : list value -> bool) (v : T)
    (rest : list ((list value -> bool) * T)) (args : list value) :
  choose ((g, v) :: rest) args = if g args then Ok v else choose rest args.
Proof.
  unfold choose. simpl. destruct (g args); case_decide; try done.
  by destruct (list_find _ rest) as [[i [g' v']]|].
Qed.

Lemma isNoMatch_NoAlternatives : isNoMatch NoAlternatives = true.
Proof. reflexivity. Qed.

Lemma isNoMatch_noMatchOf maxL count args : isNoMatch (noMatchOf maxL count args) = true.
Proof. unfold noMatchOf. by destruct (_ || _). Qed.

Variable target : Target.

Lemma nullary_candidates entries seq :
  Forall2 (compiledFrom target) entries seq ->
  maxArity entries = 0 ->
  forall c, c ∈ seq -> exists m ms, c = (tuple [], (m, Some (applyAll ms))).
Proof.
  intros shape Hmax c Hc. apply list_elem_of_lookup in Hc as [i Hi].
  destruct (Forall2_lookup_r _ _ _ _ _ shape Hi) as (entry & Hentry & gs & ms & Hlen & _ & ->).
  apply list_elem_of_lookup_2, maxArity_le in Hentry.
  assert (gs = []) as -> by (apply nil_length_inv; lia).
  by exists (member target entry.1), ms.
Qed.

Lemma _makeFunction_defined entries seq minL :
  seq <> [] -> exists f, _makeFunction seq minL (maxArity entries) = Ok f.
Proof.
  destruct seq as [|[g0 [m0 c0]] [|[g1 [m1 c1]] rest]]; [done| |]; intros _; simpl.
  - destruct (maxArity entries =? 0); eauto.
  - destruct (maxArity entries =? 0); [eauto|]. destruct rest; simpl; eauto.
Qed.

(** The special cases answer as the scan of the whole sequence does, up to
    the exception that says that nothing matched. *)
Lemma _makeFunction_scan entries seq minL f (args : list value) :
  Forall2 (compiledFrom target) entries seq ->
  _makeFunction seq minL (maxArity entries) = Ok f ->
  match generalScan seq args with
  | Ok v => f args = Ok v
  | Err e => f args = Err (noMatchOf (maxArity entries) (length seq) args) /\
             e = NoMatchOf (typeName <$> args)
  end.
Proof.
  intros shape. unfold noMatchOf.
  destruct seq as [|[g0 [m0 c0]] rest] eqn:Hseq; [done|]. unfold _makeFunction.
  destruct (maxArity entries =? 0) eqn:Hmax.
  - (* nullary *)
    apply Nat.eqb_eq in Hmax. intros [= <-]. unfold generalScan.
    pose proof (nullary_candidates _ _ shape Hmax) as Hall.
    destruct (Hall (g0, (m0, c0))) as (m & ms & [= -> -> ->]); [left|].
    destruct args as [|a args].
    + rewrite choose_cons. simpl. by rewrite applyAll_nil.
    + destruct (choose _ _) as [[m' c']|e] eqn:Hchoose.
      * apply choose_Ok in Hchoose as (i & g & Hi & Hg & _).
        apply list_elem_of_lookup_2, Hall in Hi as (? & ? & [= -> _ _]). done.
      * apply choose_Err in Hchoose as [-> _]. done.
  - destruct rest as [|[g1 [m1 c1]] rest].
    + (* one candidate *)
      intros [= <-]. unfold generalScan. rewrite choose_cons. simpl.
      by destruct (g0 args).
    + destruct rest as [|c2 rest].
      * (* two candidates *)
        intros [= <-]. unfold generalScan. rewrite !choose_cons. simpl.
        destruct (g0 args); [done|]. by destruct (g1 args).
      * (* the general case *)
        intros [= <-]. destruct (generalScan _ _) as [v|e] eqn:Hscan; [done|].
        unfold generalScan in Hscan.
        destruct (choose _ _) as [[m' c']|e'] eqn:Hchoose; [done|].
        apply choose_Err in Hchoose as [-> _]. by injection Hscan as <-.
Qed.

(** First match: the first candidate of the sequence whose guard accepts
    the arguments is the one that runs, on its converted arguments. *)
Lemma _makeFunction_first entries seq minL f (args : list value) i g m c :
  Forall2 (compiledFrom target) entries seq ->
  _makeFunction seq minL (maxArity entries) = Ok f ->
  seq !! i = Some (g, (m, c)) ->
  g args = true ->
  (forall j c', j < i -> seq !! j = Some c' -> c'.1 args = false) ->
  f args = Ok (m (converted c args)).
Proof.
  intros shape Hf Hi Hg Hfirst.
  pose proof (_makeFunction_scan _ _ _ f args shape Hf) as Hscan.
  assert (choose seq args = Ok (m, c)) as Hchoose.
  { apply choose_Ok. by exists i, g. }
  unfold generalScan in Hscan. by rewrite Hchoose in Hscan.
Qed.

(** No match: the function fails, and says so. *)
Lemma _makeFunction_none entries seq minL f (args : list value) :
  Forall2 (compiledFrom target) entries seq ->
  _makeFunction seq minL (maxArity entries) = Ok f ->
  (forall c, c ∈ seq -> c.1 args = false) ->
  f args = Err (noMatchOf (maxArity entries) (length seq) args).
Proof.
  intros shape Hf Hnone.
  pose proof (_makeFunction_scan _ _ _ f args shape Hf) as Hscan.
  assert (choose seq args = Err (NoMatchOf (typeName <$> args))) as Hchoose.
  { by apply choose_Err. }
  unfold generalScan in Hscan. rewrite Hchoose in Hscan. by destruct Hscan.
Qed.

End Dispatch.

(* ===================================================================== *)
(** ** The dispatcher *)
(* ===================================================================== *)

Section Dispatcher.

Variable host : Host.

Import guardtypes.

(** C2. First-match precedence.  Whatever the signatures and the
    arguments, the compiled function runs the first candidate, in the
    order in which [function] met the signatures, whose tuple guard
    accepts the arguments, on the arguments converted for that candidate;
    so when the first candidate accepts, it is the one that runs, whatever
    the candidates after it accept. *)
Theorem C2_first_match_precedence target st fn st' :
  function_ host target st = (Ok fn, st') ->
  exists map l,
    META_METHODS target = Some map /\
    sequenceOf host target map st = (Ok l, st') /\
    Forall2 (compiledFrom target) (signaturesOf map) (sequence l) /\
    (forall args i g m c,
       sequence l !! i = Some (g, (m, c)) ->
       g args = true ->
       (forall j c', j < i -> sequence l !! j = Some c' -> c'.1 args = false) ->
       call fn args = Ok (m (converted c args))) /\
    (forall args g m c,
       sequence l !! 0 = Some (g, (m, c)) ->
       g args = true ->
       call fn args = Ok (m (converted c args))).
Proof.
  intros (map & l & Hmap & Hseq & Hmake & _ & Hshape & Hmax)%function_Ok.
  exists map, l. rewrite Hmax in Hmake.
  assert (forall args i g m c,
       sequence l !! i = Some (g, (m, c)) ->
       g args = true ->
       (forall j c', j < i -> sequence l !! j = Some c' -> c'.1 args = false) ->
       call fn args = Ok (m (converted c args))) as Hfirst.
  { intros args i g m c. by eapply _makeFunction_first. }
  repeat split; try done.
  intros args g m c H0 Hg. apply (Hfirst args 0 g m c H0 Hg). lia.
Qed.

(** C9. The special cases of [_makeFunction] (nullary, one candidate, two
    candidates) behave as the scan of the whole candidate list: the same
    candidate wins, it runs on the same converted arguments, and the call
    fails for want of a match on the same arguments. *)
Theorem C9_fast_paths_refine_scan target st fn st' :
  function_ host target st = (Ok fn, st') ->
  exists map l,
    META_METHODS target = Some map /\
    sequenceOf host target map st = (Ok l, st') /\
    (forall args m c,
       choose (sequence l) args = Ok (m, c) ->
       call fn args = Ok (m (converted c args))) /\
    (forall args,
       match call fn args, generalScan (sequence l) args with
       | Ok v, Ok v' => v = v'
       | Err e, Err e' => isNoMatch e = true /\ isNoMatch e' = true
       | _, _ => False
       end).
Proof.
  intros (map & l & Hmap & Hseq & Hmake & _ & Hshape & Hmax)%function_Ok.
  exists map, l. rewrite Hmax in Hmake. repeat split; try done.
  - intros args m c Hchoose.
    pose proof (_makeFunction_scan target _ _ _ _ args Hshape Hmake) as Hscan.
    unfold generalScan in Hscan. by rewrite Hchoose in Hscan.
  - intros args.
    pose proof (_makeFunction_scan target _ _ _ _ args Hshape Hmake) as Hscan.
    destruct (generalScan (sequence l) args) as [v|e].
    + by rewrite Hscan.
    + destruct Hscan as [-> ->]. split; [apply isNoMatch_noMatchOf|done].
Qed.

End Dispatcher.

Section Arity.

Variable host : Host.

Import guardtypes.

Lemma foldM_eachSignature_nullary (method : list value -> value) (sigs : list (list ref)) :
  Forall (fun sig => sig = []) sigs ->
  forall l st, exists l',
    foldM (eachSignature host method) l sigs st = (Ok l', st) /\
    sequence l' = sequence l ++ ((fun _ => (tuple [], (method, applier []))) <$> sigs) /\
    maxLength l' = maxLength l.
Proof.
  induction 1 as [|sig sigs -> _ IH]; intros l st.
  - exists l. simpl. by rewrite app_nil_r.
  - rewrite foldM_cons.
    change (eachSignature host method l [] st)
      with (Ok {| maxLength := Nat.max (maxLength l) 0;
                  minLength := minInfinity (minLength l) 0;
                  sequence := sequence l ++ [(tuple [], (method, applier []))] |}, st).
    destruct (IH {| maxLength := Nat.max (maxLength l) 0;
                    minLength := minInfinity (minLength l) 0;
                    sequence := sequence l ++ [(tuple [], (method, applier []))] |} st)
      as (l' & -> & Hseq & Hmax).
    exists l'. split; [done|]. cbn [sequence maxLength] in *.
    split; [by rewrite Hseq, <- app_assoc|]. lia.
Qed.

Lemma sequenceOf_nullary target (map : list (string * list (list ref))) :
  (forall entry, entry ∈ signaturesOf map -> entry.2 = []) ->
  forall l st, exists l',
    foldM (eachKey host target) l map st = (Ok l', st) /\
    sequence l' =
      sequence l ++
      ((fun entry => (tuple [], (member target entry.1, applier []))) <$> signaturesOf map) /\
    maxLength l' = maxLength l.
Proof.
  induction map as [|[key sigs] map IH]; intros Hnull l st.
  - exists l. simpl. by rewrite app_nil_r.
  - change (signaturesOf ((key, sigs) :: map))
      with (((fun sig => (key, sig)) <$> sigs) ++ signaturesOf map) in *.
    rewrite foldM_cons. unfold eachKey at 1.
    destruct (foldM_eachSignature_nullary (member target key) sigs) with (l := l) (st := st)
      as (l1 & -> & Hseq1 & Hmax1).
    { apply Forall_forall. intros sig Hsig. apply (Hnull (key, sig)).
      apply elem_of_app. left. apply list_elem_of_fmap. by exists sig. }
    destruct (IH) with (l := l1) (st := st) as (l' & -> & Hseq & Hmax).
    { intros entry Hentry. apply Hnull. apply elem_of_app. by right. }
    exists l'. split; [done|]. split; [|lia].
    rewrite Hseq, Hseq1, fmap_app, <- app_assoc. f_equal. f_equal.
    by rewrite <- list_fmap_compose.
Qed.

(** C7. The nullary case.  A class whose signatures all have no parameter
    compiles, whatever the registry; the function it gives runs the first
    of them when called without arguments and returns what that method
    returns, and fails with "no alternatives were matched" when called
    with one argument or more. *)
Theorem C7_nullary_dispatch target st map key rest :
  META_METHODS target = Some map ->
  signaturesOf map = (key, []) :: rest ->
  (forall entry, entry ∈ signaturesOf map -> entry.2 = []) ->
  exists fn,
    function_ host target st = (Ok fn, st) /\
    call fn [] = Ok (member target key []) /\
    forall a args, call fn (a :: args) = Err NoAlternatives.
Proof.
  intros Hmap Hfirst Hnull. unfold function_, sequenceOf. rewrite Hmap.
  change (length map <? 0) with false. cbv iota. rewrite bind_run.
  destruct (sequenceOf_nullary target map Hnull
              {| maxLength := 0; minLength := None; sequence := [] |} st)
    as (l & -> & Hseq & Hmax).
  rewrite bind_run. unfold liftResult at 1. rewrite Hseq, Hmax, Hfirst. simpl.
  eexists. split; [reflexivity|]. simpl. split; [done|]. by intros a args.
Qed.

(** C6. Arity exactness.  The guard of a compiled signature accepts an
    argument list exactly when the list is as long as the signature has
    parameters and the guard of every slot accepts the argument at its
    position; hence a function whose only candidate has two parameters
    fails with "no alternatives were matched" on one argument and on
    three. *)
Theorem C6_tuple_guard_arity :
  (forall (params : list ref) st g c st',
     _getSignatureGuard host params st = (Ok (g, c), st') ->
     exists slots,
       mapM (_convertParamToUnion host) params st = (Ok slots, st') /\
       length slots = length params /\
       forall args,
         g args = true <->
         length args = length slots /\
         forall i slot a, slots !! i = Some slot -> args !! i = Some a -> slot.1 a = true) /\
  (forall target st fn st' key (r1 r2 : ref),
     function_ host target st = (Ok fn, st') ->
     META_METHODS target = Some [(key, [[r1; r2]])] ->
     forall a b c d,
       call fn [a] = Err NoAlternatives /\
       call fn [b; c; d] = Err NoAlternatives).
Proof.
  split.
  - intros params st g c st' Hsig.
    apply _getSignatureGuard_shape in Hsig as (slots & Hmap & Hlen & -> & _).
    exists slots. split; [done|]. split; [done|]. intros args.
    rewrite tuple_spec, length_fmap. split; intros [? Hall]; (split; [done|]).
    + intros i [sg sm] a Hi Ha. apply (Hall i sg a); [|done].
      by rewrite list_lookup_fmap, Hi.
    + intros i sg a Hi Ha. rewrite list_lookup_fmap in Hi.
      destruct (slots !! i) as [slot|] eqn:Hslot; [|done].
      injection Hi as <-. by apply (Hall i slot a).
  - intros target st fn st' key r1 r2 Hfn Hmeta.
    apply function_Ok in Hfn as (map & l & Hmap & Hseq & Hmake & _ & Hshape & Hmax).
    rewrite Hmeta in Hmap. injection Hmap as <-.
    change (signaturesOf [(key, [[r1; r2]])]) with [(key, [r1; r2])] in *.
    rewrite Hmax in Hmake.
    assert (forall args, length args <> 2 -> call fn args = Err NoAlternatives) as Hnone.
    { intros args Hlen.
      rewrite (_makeFunction_none target _ _ _ _ args Hshape Hmake).
      - apply Forall2_length in Hshape. unfold noMatchOf. rewrite <- Hshape. done.
      - intros cand Hcand. apply list_elem_of_lookup in Hcand as [i Hi].
        destruct (Forall2_lookup_r _ _ _ _ _ Hshape Hi)
          as (entry & Hentry & gs & ms & Hgs & _ & ->).
        apply list_elem_of_lookup_2, list_elem_of_singleton in Hentry as ->.
        simpl in *. destruct (tuple gs args) eqn:Htuple; [|done].
        apply tuple_length in Htuple. congruence. }
    intros a b c d. split; by apply Hnone.
Qed.

End Arity.

(* ===================================================================== *)
(** ** Visiting the parameters of a signature map *)
(* ===================================================================== *)

(** [function] calls [_convertParamToUnion] on every parameter of every
    signature, in order, until one call throws.  A property of the state
    that each successful call establishes for its parameter and keeps for
    the others holds of all parameters in the end; an exception is the
    exception of one of the calls. *)
Section Visit.

Variable host : Host.
Variable Pre : State -> Prop.
Variable Q : State -> ref -> Prop.
Variable E : exn -> Prop.

Hypothesis step : forall r st res st',
  Pre st -> _convertParamToUnion host r st = (res, st') ->
  match res with
  | Ok _ => Pre st' /\ Q st' r /\ (forall r', Q st r' -> Q st' r')
  | Err e => E e
  end.

Lemma visit_params (params : list ref) :
  forall st res st', Pre st ->
  mapM (_convertParamToUnion host) params st = (res, st') ->
  visited Pre Q E params st res st'.
Proof.
  induction params as [|r params IH]; intros st res st' Hpre.
  - intros [= <- <-]. split; [done|]. split; [by intros r ?%elem_of_nil|done].
  - rewrite mapM_cons.
    destruct (_convertParamToUnion host r st) as [[x|e] st1] eqn:Hone.
    + destruct (step _ _ _ _ Hpre Hone) as (Hpre1 & Hr & Hkeep1).
      destruct (mapM _ params st1) as [[xs|e] st2] eqn:Hrest.
      * intros [= <- <-]. destruct (IH _ _ _ Hpre1 Hrest) as (Hpre2 & Hall & Hkeep2).
        split; [done|]. split; [|by auto].
        intros r' [->|?]%elem_of_cons; [by apply Hkeep2|by apply Hall].
      * intros [= <- <-]. exact (IH _ _ _ Hpre1 Hrest).
    + intros [= <- <-]. exact (step _ _ _ _ Hpre Hone).
Qed.

Lemma visit_eachSignature method l (params : list ref) st res st' :
  Pre st -> eachSignature host method l params st = (res, st') ->
  visited Pre Q E params st res st'.
Proof.
  intros Hpre. unfold eachSignature, _getSignatureGuard. rewrite !bind_run.
  destruct (mapM _ params st) as [[gms|e] st1] eqn:Hmap.
  - intros [= <- <-]. exact (visit_params _ _ _ _ Hpre Hmap).
  - intros [= <- <-]. exact (visit_params _ _ _ _ Hpre Hmap).
Qed.

Lemma visit_signatures method (sigs : list (list ref)) :
  forall l st res st', Pre st ->
  foldM (eachSignature host method) l sigs st = (res, st') ->
  visited Pre Q E (mjoin sigs) st res st'.
Proof.
  induction sigs as [|sig sigs IH]; intros l st res st' Hpre.
  - intros [= <- <-]. split; [done|]. split; [by intros r ?%elem_of_nil|done].
  - rewrite foldM_cons.
    destruct (eachSignature host method l sig st) as [[l1|e] st1] eqn:Hone.
    + destruct (visit_eachSignature _ _ _ _ _ _ Hpre Hone) as (Hpre1 & Hsig & Hkeep1).
      intros Hrest. specialize (IH _ _ _ _ Hpre1 Hrest).
      destruct res as [l2|e]; [|done]. destruct IH as (Hpre2 & Hall & Hkeep2).
      split; [done|]. split; [|by auto].
      intros r [?|?]%elem_of_app; [by apply Hkeep2, Hsig|by apply Hall].
    + intros [= <- <-]. exact (visit_eachSignature _ _ _ _ _ _ Hpre Hone).
Qed.

Lemma parametersOf_cons key (sigs : list (list ref)) (map : list (string * list (list ref))) :
  parametersOf ((key, sigs) :: map) = mjoin sigs ++ parametersOf map.
Proof.
  unfold parametersOf.
  change (signaturesOf ((key, sigs) :: map))
    with (((fun sig => (key, sig)) <$> sigs) ++ signaturesOf map).
  rewrite bind_app. f_equal.
  induction sigs as [|sig sigs IH]; [done|]. simpl. by rewrite <- IH.
Qed.

Lemma visit_map target (map : list (string * list (list ref))) :
  forall l st res st', Pre st ->
  foldM (eachKey host target) l map st = (res, st') ->
  visited Pre Q E (parametersOf map) st res st'.
Proof.
  induction map as [|[key sigs] map IH]; intros l st res st' Hpre.
  - intros [= <- <-]. split; [done|]. split; [by intros r ?%elem_of_nil|done].
  - rewrite foldM_cons, parametersOf_cons. unfold eachKey at 1.
    destruct (foldM (eachSignature _ _) l sigs st) as [[l1|e] st1] eqn:Hone.
    + destruct (visit_signatures _ _ _ _ _ _ Hpre Hone) as (Hpre1 & Hsig & Hkeep1).
      intros Hrest. specialize (IH _ _ _ _ Hpre1 Hrest).
      destruct res as [l2|e]; [|done]. destruct IH as (Hpre2 & Hall & Hkeep2).
      split; [done|]. split; [|by auto].
      intros r [?|?]%elem_of_app; [by apply Hkeep2, Hsig|by apply Hall].
    + intros [= <- <-]. exact (visit_signatures _ _ _ _ _ _ Hpre Hone).
Qed.

End Visit.

Section Effects.

Variable host : Host.

(** Compiling a signature map expands every parameter array it visits,
    in place: what the heap holds afterwards includes the expansion of
    what it held before. *)
Lemma sequenceOf_expands target (map : list (string * list (list ref))) st l st' :
  sequenceOf host target map st = (Ok l, st') ->
  grows st st' /\
  forall r, r ∈ parametersOf map ->
    (expand (this st) (deref (heap st) r)).1 ⊆ deref (heap st') r.
Proof.
  intros Hseq.
  pose proof (visit_map host (grows st)
    (fun s r => (expand (this st) (deref (heap st) r)).1 ⊆ deref (heap s) r)
    (fun _ => True)) as Hvisit.
  apply Hvisit in Hseq as (Hgrows & Hall & _); [done| |apply grows_refl].
  clear. intros r s res s' Hpre Hone. destruct res as [x|e]; [|done].
  pose proof (_convertParamToUnion_grows _ _ _ _ _ Hone) as Hstep.
  split; [by eapply grows_trans|]. split.
  - apply _convertParamToUnion_heap in Hone as (-> & _ & _).
    rewrite deref_expanded. destruct Hpre as (Hc & _ & Hsub).
    rewrite <- (expand_conversions (this st) (this s)) by done.
    apply expand_mono, Hsub.
  - intros r' Hr'. etrans; [exact Hr'|]. by destruct Hstep as (_ & _ & ?).
Qed.

(** With auto-registration off, compiling a signature map leaves the
    registry as it is and either finds guards for every type of every
    parameter array, as expanded, or throws "unknown type" for a type
    that has none. *)
Lemma sequenceOf_strict target (map : list (string * list (list ref))) st res st' :
  autoadd (options (this st)) = false ->
  sequenceOf host target map st = (res, st') ->
  match res with
  | Ok _ =>
      this st' = this st /\
      forall r, r ∈ parametersOf map -> Forall (registered (this st)) (deref (heap st') r)
  | Err e => exists t, ~ registered (this st) t /\ e = UnknownType t
  end.
Proof.
  intros Hauto Hseq.
  pose proof (visit_map host (fun s => this s = this st)
    (fun s r => Forall (registered (this st)) (deref (heap s) r))
    (fun e => exists t, ~ registered (this st) t /\ e = UnknownType t)) as Hvisit.
  eapply Hvisit in Hseq; [|clear Hseq|done].
  - destruct res as [l|e]; [|done]. by destruct Hseq as (? & ? & _).
  - clear res st'. intros r s res s' Hpre. rewrite _convertParamToUnion_run. simpl.
    destruct (mapM_getGuard_strict host (expand (this s) (deref (heap s) r)).1
                {| this := this s;
                   heap := <[r:=(expand (this s) (deref (heap s) r)).1]> (heap s) |})
      as (res1 & -> & Hres); [simpl; by rewrite Hpre|].
    simpl in Hres. rewrite Hpre in Hres. destruct res1 as [gs|e].
    + intros [= <- <-]. simpl. rewrite Hpre. destruct Hres as [_ Hall].
      split; [done|]. split; [by rewrite deref_expanded|].
      intros r' Hr'. rewrite deref_insert. by case_decide.
    + intros [= <- <-]. destruct Hres as (t & _ & ? & ?). by exists t.
Qed.

End Effects.

Section Failures.

Variable host : Host.

Lemma isNoMatch_UnknownType (t : Type_) : isNoMatch (UnknownType t) = false.
Proof. reflexivity. Qed.

(** A compiled function fails in one way only: nothing matched. *)
Lemma call_Err target st fn st' args e :
  function_ host target st = (Ok fn, st') ->
  call fn args = Err e -> isNoMatch e = true.
Proof.
  intros (map & l & Hmap & Hseq & Hmake & _ & Hshape & Hmax)%function_Ok Hcall.
  rewrite Hmax in Hmake.
  pose proof (_makeFunction_scan target _ _ _ _ args Hshape Hmake) as Hscan.
  destruct (generalScan (sequence l) args) as [v|e']; [congruence|].
  destruct Hscan as [Hscan _]. rewrite Hscan in Hcall. injection Hcall as <-.
  apply isNoMatch_noMatchOf.
Qed.

(** C8. A class without signatures is rejected.  When the class carries
    no signature metadata, [function] throws "No signatures provided",
    returns no function and leaves the state as it is. *)
Theorem C8_no_signatures_rejected (member : string -> list value -> value)
    (name : string) (st : State) :
  function_ host {| META_METHODS := None; member := member; targetName := name |} st
  = (Err NoSignatures, st).
Proof. reflexivity. Qed.

(** The test [Object.keys(map).length < 0] of [function] holds for no
    map: a map without keys, which the decorators never leave, gets past
    it, and [_makeFunction] then fails on [sequence[0]]. *)
Lemma function_empty_map (member : string -> list value -> value)
    (name : string) (st : State) :
  function_ host {| META_METHODS := Some []; member := member; targetName := name |} st
  = (Err RuntimeTypeError, st).
Proof. reflexivity. Qed.

End Failures.

(* ===================================================================== *)
(** ** The readme, run *)
(* ===================================================================== *)

Section ReadmeRun.

Import DefaultTypes Readme guardtypes.

Example registry_built : registry.1 = Ok ().
Proof. vm_compute. reflexivity. Qed.

(** C1. End to end.  With a method on two numbers above a method on two
    pairs, and the conversion from a number [n] to the pair [(n, 0)]:
    called with [(3, 6)] the function runs the method on numbers on
    [(3, 6)]; called with [(3, Pair(0, 6))] it runs the method on pairs on
    [(Pair(3, 0), Pair(0, 6))], the number converted; called with
    [(3, "6")] it fails with "no alternatives were matched".  With the
    readme's two methods the results are [18] and [Pair(0, 18)]. *)
Theorem C1_readme_end_to_end :
  (forall number pair : list value -> value,
     let times := function_ host (Times number pair) ready in
     callOf times [VNumber 3; VNumber 6] = Ok (number [VNumber 3; VNumber 6]) /\
     callOf times [VNumber 3; newPair 0 6] = Ok (pair [newPair 3 0; newPair 0 6]) /\
     callOf times [VNumber 3; VString "6"] = Err NoAlternatives) /\
  (let times := function_ host (Times number pair) ready in
   callOf times [VNumber 3; VNumber 6] = Ok (VNumber 18) /\
   callOf times [VNumber 3; newPair 0 6] = Ok (newPair 0 18) /\
   callOf times [VNumber 3; VString "6"] = Err NoAlternatives /\
   isNoMatch NoAlternatives = true).
Proof.
  split.
  - intros number pair. repeat split; vm_compute; reflexivity.
  - repeat split; vm_compute; reflexivity.
Qed.

(** With one array for both parameters the first visit expands it and
    the second visit finds nothing to add: the second slot accepts a
    number and hands it on as it is. *)
Example shared_array_second_slot (pair : list value -> value) :
  callOf (function_ host (Shared pair) sharedReady) [VNumber 3; VNumber 4]
  = Ok (pair [newPair 3 0; VNumber 4]).
Proof. vm_compute. reflexivity. Qed.

(** Compiled a second time, the class of the readme accepts a number
    where a pair is declared and no longer converts it. *)
Example second_compilation (number pair : list value -> value) :
  let first := function_ host (Times number pair) ready in
  let second := function_ host (Times number pair) first.2 in
  callOf first [VNumber 3; newPair 0 6] = Ok (pair [newPair 3 0; newPair 0 6]) /\
  callOf second [VNumber 3; newPair 0 6] = Ok (pair [VNumber 3; newPair 0 6]).
Proof. split; vm_compute; reflexivity. Qed.

(** The two methods of [Both] accept the same arguments; the one declared
    first answers. *)
Example both_first :
  callOf (function_ host Both bothReady) [VNumber 3; VNumber 6] = Ok (VString "first").
Proof. vm_compute. reflexivity. Qed.

Example stranger_unknown :
  (function_ host Stranger strangerReady).1 = Err (UnknownType Foo).
Proof. vm_compute. reflexivity. Qed.

Lemma C2_first_match_witness :
  let r := function_ host Both bothReady in
  function_ host Both bothReady = (Ok (compiled r), r.2) /\
  exists map l,
    META_METHODS Both = Some map /\
    sequenceOf host Both map bothReady = (Ok l, r.2) /\
    forall args g m c,
      sequence l !! 0 = Some (g, (m, c)) -> g args = true ->
      call (compiled r) args = Ok (m (converted c args)).
Proof.
  intros r.
  assert (function_ host Both bothReady = (Ok (compiled r), r.2)) as Hfn
    by (vm_compute; reflexivity).
  split; [exact Hfn|].
  destruct (C2_first_match_precedence host Both bothReady (compiled r) r.2 Hfn)
    as (map & l & Hmeta & Hseq & _ & _ & Hzero).
  exists map, l. exact (conj Hmeta (conj Hseq Hzero)).
Defined.

Example readme_pair_slot :
  deref (heap ready) 2 = [Pair] /\
  deref (heap (_convertParamToUnion host 2 ready).2) 2 = [Pair; Number] /\
  (expand (this ready) [Pair]).2 = [I; fromNumber].
Proof. repeat split; vm_compute; reflexivity. Qed.

Lemma C6_tuple_guard_witness :
  (let r := _getSignatureGuard host [2; 3] ready in
   let candidate := okOr (fun _ => false, None) r.1 in
   _getSignatureGuard host [2; 3] ready = (Ok (candidate.1, candidate.2), r.2) /\
   candidate.1 [VNumber 3] = false) /\
  (let r := function_ host Sole soleReady in
   function_ host Sole soleReady = (Ok (compiled r), r.2) /\
   call (compiled r) [VNumber 3] = Err NoAlternatives /\
   call (compiled r) [VNumber 3; VNumber 6; VNumber 9] = Err NoAlternatives).
Proof.
  split.
  - intros r candidate.
    assert (_getSignatureGuard host [2; 3] ready = (Ok (candidate.1, candidate.2), r.2))
      as Hsig by (vm_compute; reflexivity).
    split; [exact Hsig|].
    destruct (proj1 (C6_tuple_guard_arity host) _ _ _ _ _ Hsig)
      as (slots & _ & Hlen & Hiff).
    destruct (candidate.1 [VNumber 3]) eqn:Hg; [|reflexivity].
    apply Hiff in Hg as [Hg _]. rewrite Hlen in Hg. discriminate Hg.
  - intros r.
    assert (function_ host Sole soleReady = (Ok (compiled r), r.2)) as Hfn
      by (vm_compute; reflexivity).
    split; [exact Hfn|].
    exact (proj2 (C6_tuple_guard_arity host) Sole soleReady (compiled r) r.2 "number" 0 1
             Hfn eq_refl (VNumber 3) (VNumber 3) (VNumber 6) (VNumber 9)).
Defined.

Lemma C7_nullary_witness :
  exists fn,
    function_ host Nullary ready = (Ok fn, ready) /\
    call fn [] = Ok (VNumber 0) /\
    forall a args, call fn (a :: args) = Err NoAlternatives.
Proof.
  apply (C7_nullary_dispatch host Nullary ready [("zero", [[]])] "zero" []).
  - reflexivity.
  - reflexivity.
  - intros entry Hentry.
    apply elem_of_cons in Hentry as [->|Hentry]; [reflexivity|].
    by apply elem_of_nil in Hentry.
Defined.

Lemma C9_fast_paths_witness :
  let r := function_ host (Times number pair) ready in
  function_ host (Times number pair) ready = (Ok (compiled r), r.2) /\
  exists map l,
    META_METHODS (Times number pair) = Some map /\
    sequenceOf host (Times number pair) map ready = (Ok l, r.2) /\
    forall args m c,
      choose (sequence l) args = Ok (m, c) ->
      call (compiled r) args = Ok (m (converted c args)).
Proof.
  intros r.
  assert (function_ host (Times number pair) ready = (Ok (compiled r), r.2)) as Hfn
    by (vm_compute; reflexivity).
  split; [exact Hfn|].
  destruct (C9_fast_paths_refine_scan host _ _ _ _ Hfn)
    as (map & l & Hmeta & Hseq & Hwin & _).
  exists map, l. exact (conj Hmeta (conj Hseq Hwin)).
Defined.

End ReadmeRun.

(* ===================================================================== *)
(** ** More on the compiled function *)
(* ===================================================================== *)

Section Calls.

Variable host : Host.

Import guardtypes.

(** X2. The [length] of the function is the largest parameter count among the
    signatures and its [name] is the name read off the instance; a call
    with more arguments than that, or with a number of arguments that no
    signature has, matches nothing. *)
Theorem function_length_and_arity target st fn st' :
  function_ host target st = (Ok fn, st') ->
  exists map,
    META_METHODS target = Some map /\
    fnLength fn = maxArity (signaturesOf map) /\
    fnName fn = targetName target /\
    (forall args,
       (forall entry, entry ∈ signaturesOf map -> length entry.2 <> length args) ->
       exists e, call fn args = Err e /\ isNoMatch e = true) /\
    (forall args, fnLength fn < length args ->
       exists e, call fn args = Err e /\ isNoMatch e = true).
Proof.
  intros Hfn.
  pose proof Hfn as (map & l & Hmap & Hseq & Hmake & Hlen & Hshape & Hmax)%function_Ok.
  exists map. rewrite Hmax in *. split; [done|]. split; [done|].
  assert (fnName fn = targetName target) as Hname.
  { unfold function_ in Hfn. rewrite Hmap in Hfn.
    change (length map <? 0) with false in Hfn. cbv iota in Hfn.
    apply bind_Ok in Hfn as (l1 & st1 & _ & Hfn).
    apply bind_Ok in Hfn as (f & st2 & _ & Hfn). by injection Hfn as <- _. }
  assert (forall args,
       (forall entry, entry ∈ signaturesOf map -> length entry.2 <> length args) ->
       exists e, call fn args = Err e /\ isNoMatch e = true) as Harity.
  { intros args Hno. eexists. split; [|apply isNoMatch_noMatchOf].
    apply (_makeFunction_none target _ _ _ _ args Hshape Hmake).
    intros cand Hcand. apply list_elem_of_lookup in Hcand as [i Hi].
    destruct (Forall2_lookup_r _ _ _ _ _ Hshape Hi)
      as (entry & Hentry & gs & ms & Hgs & _ & ->).
    apply list_elem_of_lookup_2 in Hentry. simpl.
    destruct (tuple gs args) eqn:Htuple; [|done].
    apply tuple_length in Htuple. specialize (Hno entry Hentry). congruence. }
  split; [done|]. split; [done|]. intros args Hlong. apply Harity.
  intros entry Hentry%maxArity_le. lia.
Qed.

End Calls.

(* ===================================================================== *)
(** ** The [signature] decorator *)
(* ===================================================================== *)

Section Decorator.

Lemma getKey_cons {V : Type} (k : string) (w : V) (map : list (string * V)) (key : string) :
  getKey ((k, w) :: map) key = if decide (k = key) then Some w else getKey map key.
Proof.
  unfold getKey. cbn [list_find].
  destruct (decide ((k, w).1 = key)) as [H|H]; simpl in H.
  - by rewrite decide_True.
  - rewrite decide_False by done. by destruct (list_find _ map) as [[i [k' v']]|].
Qed.


Lemma getKey_app_here {V : Type} (pre post : list (string * V)) (key : string) (v : V) :
  key ∉ pre.*1 -> getKey (pre ++ (key, v) :: post) key = Some v.
Proof.
  induction pre as [|[k w] pre IH]; simpl.
  - intros _. by rewrite getKey_cons, decide_True.
  - rewrite not_elem_of_cons. intros [Hne Hout].
    rewrite getKey_cons, decide_False by done. by apply IH.
Qed.


Lemma existsb_key {V : Type} (map : list (string * V)) (key : string) :
  existsb (fun kv => String.eqb kv.1 key) map = true <-> key ∈ map.*1.
Proof.
  rewrite existsb_exists. split.
  - intros ([k w] & Hin%list_elem_of_In & Heq). cbn [fst] in Heq.
    apply String.eqb_eq in Heq as <-. apply list_elem_of_fmap. by exists (k, w).
  - intros ([k w] & -> & Hin)%list_elem_of_fmap. exists (k, w).
    split; [by apply list_elem_of_In|apply String.eqb_refl].
Qed.

Lemma replaceKey_split {V : Type} (map : list (string * V)) (key : string) (v : V) :
  key ∈ map.*1 ->
  exists pre w post,
    map = pre ++ (key, w) :: post /\ (key ∉ pre.*1) /\
    replaceKey map key v = pre ++ (key, v) :: post.
Proof.
  induction map as [|[k w] map IH]; [by intros ?%elem_of_nil|].
  rewrite fmap_cons. cbn [replaceKey fst]. destruct (String.eqb k key) eqn:Hk.
  - apply String.eqb_eq in Hk as ->. intros _. exists [], w, map.
    split; [done|]. split; [apply not_elem_of_nil|done].
  - apply String.eqb_neq in Hk. intros [?|Hin]%elem_of_cons; [congruence|].
    destruct (IH Hin) as (pre & w' & post & -> & Hout & ->).
    exists ((k, w) :: pre), w', post. split; [done|]. split; [|done].
    rewrite fmap_cons, not_elem_of_cons. cbn [fst]. split; [congruence|done].
Qed.

Lemma insertIndex_split {V : Type} (map : list (string * V)) (key : string) (n : N) (v : V) :
  exists pre post,
    map = pre ++ post /\
    insertIndex map key n v = pre ++ (key, v) :: post /\
    (forall k, k ∈ pre.*1 -> exists m, arrayIndex k = Some m /\ (m < n)%N) /\
    (forall e, head post = Some e -> forall m, arrayIndex e.1 = Some m -> (n <= m)%N).
Proof.
  induction map as [|[k w] map IH]; cbn [insertIndex].
  - exists [], []. split; [done|]. split; [done|]. split; [by intros k ?%elem_of_nil|done].
  - destruct (arrayIndex k) as [m|] eqn:Hk; [destruct (m <? n)%N eqn:Hlt|].
    + apply N.ltb_lt in Hlt. destruct IH as (pre & post & -> & -> & Hpre & Hpost).
      exists ((k, w) :: pre), post. split; [done|]. split; [done|]. split; [|done].
      intros k' [->|?]%elem_of_cons; [by exists m|by apply Hpre].
    + apply N.ltb_ge in Hlt. exists [], ((k, w) :: map).
      split; [done|]. split; [done|]. split; [by intros k' ?%elem_of_nil|].
      intros e [= <-] m'. cbn [fst]. rewrite Hk. by intros [= <-].
    + exists [], ((k, w) :: map).
      split; [done|]. split; [done|]. split; [by intros k' ?%elem_of_nil|].
      intros e [= <-] m'. cbn [fst]. by rewrite Hk.
Qed.

(** Where [{ ...map, [key]: v }] puts the key: in the place it had, or,
    for a new key, behind all keys when it is a name and behind the
    smaller array indices when it is one. *)
Lemma setKey_split {V : Type} (map : list (string * V)) (key : string) (v : V) :
  exists pre post,
    setKey map key v = pre ++ (key, v) :: post /\ (key ∉ pre.*1) /\
    ((exists w, map = pre ++ (key, w) :: post) \/
     ((key ∉ map.*1) /\ map = pre ++ post /\
      match arrayIndex key with
      | None => post = []
      | Some n =>
          (forall k, k ∈ pre.*1 -> exists m, arrayIndex k = Some m /\ (m < n)%N) /\
          (forall e, head post = Some e -> forall m, arrayIndex e.1 = Some m -> (n <= m)%N)
      end)).
Proof.
  unfold setKey. destruct (existsb _ map) eqn:Hhas.
  - apply existsb_key in Hhas.
    destruct (replaceKey_split map key v Hhas) as (pre & w & post & Hmap & Hout & ->).
    exists pre, post. split; [done|]. split; [done|]. left. by exists w.
  - assert (key ∉ map.*1) as Hout.
    { intros Hin%existsb_key. congruence. }
    destruct (arrayIndex key) as [n|] eqn:Hkey.
    + destruct (insertIndex_split map key n v) as (pre & post & Hmap & -> & Hpre & Hpost).
      exists pre, post. split; [done|]. split.
      * intros Hin. apply Hout. rewrite Hmap, fmap_app. apply elem_of_app. by left.
      * right. split; [done|]. split; [done|]. by split.
    + exists map, []. split; [done|]. split; [done|]. right.
      by rewrite app_nil_r.
Qed.

Lemma getKey_setKey {V : Type} (map : list (string * V)) (key : string) (v : V) :
  getKey (setKey map key v) key = Some v.
Proof.
  destruct (setKey_split map key v) as (pre & post & -> & Hout & _).
  by apply getKey_app_here.
Qed.


Lemma setKey_keys {V : Type} (map : list (string * V)) (key : string) (v : V) :
  key ∈ map.*1 -> (setKey map key v).*1 = map.*1.
Proof.
  intros Hin. destruct (setKey_split map key v) as (pre & post & -> & _ & Hmap).
  destruct Hmap as [[w ->]|(Hout & _)]; [|done]. by rewrite !fmap_app, !fmap_cons.
Qed.




(** The arrays of a new signature: an array given is kept by its address,
    a single type gets a new array after those of the heap. *)
Lemma toParameter_spec (ps : list SignatureArg) :
  forall (sig : list ref) (h : list (list Type_)),
  exists (sig' : list ref) (fresh : list (list Type_)),
    foldl toParameter (sig, h) ps = (sig ++ sig', h ++ fresh) /\
    length sig' = length ps /\
    forall i p, ps !! i = Some p ->
      match p with
      | TypeArray r => sig' !! i = Some r
      | OneType t =>
          exists r, sig' !! i = Some r /\ length h <= r /\
            (h ++ fresh) !! r = Some [t] /\
            forall j q, j <> i -> ps !! j = Some q -> sig' !! j = Some r ->
              exists r', q = TypeArray r' /\ length h <= r'
      end.
Proof.
  induction ps as [|p ps IH]; intros sig h.
  - exists [], []. rewrite !app_nil_r. split; [done|]. split; [done|]. by intros i p.
  - cbn [foldl]. destruct p as [t|r]; cbn [toParameter].
    + destruct (IH (sig ++ [length h]) (h ++ [[t]])) as (sig' & fresh & Heq & Hlen & Hall).
      exists (length h :: sig'), ([t] :: fresh).
      rewrite Heq, <- !app_assoc. split; [done|]. split; [simpl; by rewrite Hlen|].
      intros [|i] p; simpl.
      * intros [= <-]. exists (length h). split; [done|]. split; [done|].
        split; [by rewrite lookup_app_r, Nat.sub_diag by done|].
        intros [|j] q Hj; [done|]. simpl. intros Hq Hsig.
        specialize (Hall j q Hq). destruct q as [t'|r'].
        -- destruct Hall as (r & Hr & Hge & _). rewrite length_app in Hge. simpl in Hge.
           rewrite Hsig in Hr. injection Hr as <-. lia.
        -- rewrite Hsig in Hall. injection Hall as <-. by exists (length h).
      * intros Hp. specialize (Hall i p Hp). destruct p as [t'|r']; [|done].
        destruct Hall as (r & Hr & Hge & Hfresh & Hother).
        rewrite length_app in Hge. simpl in Hge.
        exists r. split; [done|]. split; [lia|]. split; [by rewrite <- app_assoc in Hfresh|].
        intros [|j] q Hj; simpl; [intros [= <-] [= <-]; lia|].
        intros Hq Hsig. destruct (Hother j q) as (r' & -> & Hr'); [lia|done|done|].
        exists r'. split; [done|]. rewrite length_app in Hr'. simpl in Hr'. lia.
    + destruct (IH (sig ++ [r]) h) as (sig' & fresh & Heq & Hlen & Hall).
      exists (r :: sig'), fresh. rewrite Heq, <- !app_assoc.
      split; [done|]. split; [simpl; by rewrite Hlen|].
      intros [|i] p; simpl; [by intros [= <-]|].
      intros Hp. specialize (Hall i p Hp). destruct p as [t'|r']; [|done].
      destruct Hall as (r0 & Hr & Hge & Hfresh & Hother).
      exists r0. split; [done|]. split; [done|]. split; [done|].
      intros [|j] q Hj; simpl; [|apply Hother; lia].
      intros [= <-] [= ?]. subst. by eexists.
Qed.



End Decorator.

Section DecoratorProperties.



(** A decoration that is not on a method changes nothing. *)
Lemma signature_not_a_method paramTypes design key meta h :
  signature paramTypes false design key meta h = (meta, h).
Proof. reflexivity. Qed.



Lemma declared_signaturesOf (map : list (string * list (list ref))) :
  declared map -> signaturesOf map <> [].
Proof.
  intros [Hne Hall]. destruct map as [|[k sigs] map]; [done|].
  change (signaturesOf ((k, sigs) :: map))
    with (((fun sig => (k, sig)) <$> sigs) ++ signaturesOf map).
  specialize (Hall (k, sigs)). destruct sigs; [|done]. exfalso. apply Hall; [left|done].
Qed.

End DecoratorProperties.

(* ===================================================================== *)
(** ** What compiling leaves alone *)
(* ===================================================================== *)

Section Frames.

Variable host : Host.

(** An array in which every conversion that ends at one of its types
    starts from one of its types is its own expansion. *)
Lemma expand_stable (T : Typed) (ts : list Type_) :
  (forall t cm, t ∈ ts -> cm ∈ conversionsTo T t -> fromType cm ∈ ts) <->
  (expand T ts).1 = ts.
Proof.
  destruct (expand T ts) as [accepted converters] eqn:Hexp.
  apply expand_spec in Hexp as (added & -> & _ & Hsub & Hall & _). cbn [fst]. split.
  - intros Hstable. destruct added as [|cm added]; [by rewrite app_nil_r|].
    destruct (Hsub cm) as (Hnew & toType & Hto & Hcm); [left|].
    exfalso. apply Hnew. by apply (Hstable toType).
  - intros Heq t cm Ht Hcm. specialize (Hall t cm Ht Hcm). by rewrite Heq in Hall.
Qed.

Lemma insert_deref (h : list (list Type_)) (r : ref) : <[r:=deref h r]> h = h.
Proof.
  unfold deref. destruct (h !! r) as [ts|] eqn:Hr.
  - by apply list_insert_id.
  - apply list_insert_ge. by apply lookup_ge_None.
Qed.

(** The state after [_convertParamToUnion] with auto-registration off. *)
Lemma _convertParamToUnion_strict (r : ref) st res st' :
  autoadd (options (this st)) = false ->
  _convertParamToUnion host r st = (res, st') ->
  st' = {| this := this st;
           heap := <[r:=(expand (this st) (deref (heap st) r)).1]> (heap st) |}.
Proof.
  intros Hauto. rewrite _convertParamToUnion_run. cbn zeta.
  destruct (mapM_getGuard_strict host (expand (this st) (deref (heap st) r)).1
              {| this := this st;
                 heap := <[r:=(expand (this st) (deref (heap st) r)).1]> (heap st) |})
    as (res1 & -> & _); [done|].
  destruct res1; by intros [= _ <-].
Qed.

(** X6. With auto-registration off, [function] never changes the registry,
    whether it returns or throws: the guards, the conversions and the
    options are afterwards what they were. *)
Theorem function_keeps_registry target st res st' :
  autoadd (options (this st)) = false ->
  function_ host target st = (res, st') ->
  this st' = this st.
Proof.
  intros Hauto.
  set (R := fun s s' : State => this s = this st -> this s' = this st).
  assert (forall s, R s s) as Hrefl by (intros s Hs; exact Hs).
  assert (forall s1 s2 s3, R s1 s2 -> R s2 s3 -> R s1 s3) as Htrans
    by (intros s1 s2 s3 H12 H23 H1; exact (H23 (H12 H1))).
  assert (forall r s res1 s', _convertParamToUnion host r s = (res1, s') -> R s s') as Hone.
  { intros r s res1 s' Hrun Hs.
    apply _convertParamToUnion_strict in Hrun as ->; [done|by rewrite Hs]. }
  assert (forall method l sig s res1 s',
            eachSignature host method l sig s = (res1, s') -> R s s') as Hsig.
  { intros method l sig s res1 s'. unfold eachSignature, _getSignatureGuard.
    rewrite !bind_run. destruct (mapM _ sig s) as [[gms|e] s1] eqn:Hmap.
    - intros [= _ <-]. revert Hmap. apply (mapM_inv R Hrefl Htrans). by eauto.
    - intros [= _ <-]. revert Hmap. apply (mapM_inv R Hrefl Htrans). by eauto. }
  assert (forall map l s res1 s',
            foldM (eachKey host target) l map s = (res1, s') -> R s s') as Hmap.
  { intros map. apply (foldM_inv R Hrefl Htrans).
    intros l [key sigs] s res1 s' _. unfold eachKey.
    apply (foldM_inv R Hrefl Htrans). by eauto. }
  unfold function_. destruct (META_METHODS target) as [map|]; [|by intros [= _ <-]].
  change (length map <? 0) with false. cbv iota. rewrite bind_run. unfold sequenceOf.
  destruct (foldM _ _ map st) as [[l|e] st1] eqn:Hloop.
  - rewrite bind_run. unfold liftResult.
    destruct (_makeFunction _ _ _); intros [= _ <-]; by apply (Hmap _ _ _ _ _ Hloop).
  - intros [= _ <-]. by apply (Hmap _ _ _ _ _ Hloop).
Qed.

(** X7. The outcomes of [function] on a class that the decorator declared,
    with auto-registration off: it returns a function, or it throws
    "unknown type" for a type without guards; it throws nothing else. *)
Theorem function_outcomes target st map :
  autoadd (options (this st)) = false ->
  META_METHODS target = Some map ->
  declared map ->
  (exists fn st', function_ host target st = (Ok fn, st')) \/
  (exists t st', ~ registered (this st) t /\
     function_ host target st = (Err (UnknownType t), st')).
Proof.
  intros Hauto Hmeta Hdecl%declared_signaturesOf.
  unfold function_. rewrite Hmeta. change (length map <? 0) with false. cbv iota.
  rewrite bind_run. destruct (sequenceOf host target map st) as [[l|e] st1] eqn:Hseq.
  - left. pose proof Hseq as (new & Hnew & Hshape & Hmax)%sequenceOf_shape.
    cbn [sequence maxLength app] in *. rewrite Nat.max_0_l in Hmax.
    destruct (_makeFunction_defined (signaturesOf map) (sequence l) (minLength l))
      as [f Hf].
    { rewrite Hnew. intros ->. apply Forall2_length in Hshape.
      by destruct (signaturesOf map). }
    rewrite bind_run. unfold liftResult. rewrite Hmax, Hf. by eauto.
  - right. destruct (sequenceOf_strict _ _ _ _ _ _ Hauto Hseq) as (t & ? & ->).
    by exists t, st1.
Qed.

(** X8. Compiling reads only when there is nothing to convert: with
    auto-registration off, if in every parameter array of the class each
    conversion that ends at one of its types starts from one of its
    types (as when no conversion ends there at all), [function] leaves
    the whole state as it is, whether it returns or throws. *)
Theorem function_reads_only target st map res st' :
  autoadd (options (this st)) = false ->
  META_METHODS target = Some map ->
  (forall r t cm, r ∈ parametersOf map -> t ∈ deref (heap st) r ->
     cm ∈ conversionsTo (this st) t -> fromType cm ∈ deref (heap st) r) ->
  function_ host target st = (res, st') ->
  st' = st.
Proof.
  intros Hauto Hmeta Hstable.
  set (R := fun s s' : State => s = st -> s' = st).
  assert (forall s, R s s) as Hrefl by (intros s Hs; exact Hs).
  assert (forall s1 s2 s3, R s1 s2 -> R s2 s3 -> R s1 s3) as Htrans
    by (intros s1 s2 s3 H12 H23 H1; exact (H23 (H12 H1))).
  assert (forall r s res1 s', r ∈ parametersOf map ->
            _convertParamToUnion host r s = (res1, s') -> R s s') as Hone.
  { intros r s res1 s' Hr Hrun ->.
    apply _convertParamToUnion_strict in Hrun as ->; [|done].
    assert ((expand (this st) (deref (heap st) r)).1 = deref (heap st) r) as ->.
    { apply expand_stable. intros t cm. by apply Hstable. }
    rewrite insert_deref. by destruct st. }
  assert (forall method l sig s res1 s', (forall r, r ∈ sig -> r ∈ parametersOf map) ->
            eachSignature host method l sig s = (res1, s') -> R s s') as Hsig.
  { intros method l sig s res1 s' Hin. unfold eachSignature, _getSignatureGuard.
    rewrite !bind_run. destruct (mapM _ sig s) as [[gms|e] s1] eqn:Hmap.
    - intros [= _ <-]. revert Hmap. apply (mapM_inv R Hrefl Htrans). by eauto.
    - intros [= _ <-]. revert Hmap. apply (mapM_inv R Hrefl Htrans). by eauto. }
  assert (forall l s res1 s',
            foldM (eachKey host target) l map s = (res1, s') -> R s s') as Hmap.
  { apply (foldM_inv R Hrefl Htrans).
    intros l [key sigs] s res1 s' Hentry. unfold eachKey.
    apply (foldM_inv R Hrefl Htrans). intros l1 sig s1 res2 s2 Hsigin. apply Hsig.
    intros r Hr. unfold parametersOf. apply list_elem_of_bind. exists (key, sig).
    split; [done|]. unfold signaturesOf. apply list_elem_of_bind. exists (key, sigs).
    split; [|done]. apply list_elem_of_fmap. by exists sig. }
  unfold function_. rewrite Hmeta. change (length map <? 0) with false. cbv iota.
  rewrite bind_run. unfold sequenceOf.
  destruct (foldM _ _ map st) as [[l|e] st1] eqn:Hloop.
  - rewrite bind_run. unfold liftResult.
    destruct (_makeFunction _ _ _); intros [= _ <-]; by apply (Hmap _ _ _ _ Hloop).
  - intros [= _ <-]. by apply (Hmap _ _ _ _ Hloop).
Qed.

End Frames.

(* ===================================================================== *)
(** ** The registry *)
(* ===================================================================== *)

Section Registry.

Variable host : Host.

Lemma weakGet_truthy {V : Type} (m : gmap Type_ V) (t : Type_) :
  truthy t = true -> weakGet m t = m !! t.
Proof. unfold weakGet. by intros ->. Qed.

Lemma weakGet_falsy {V : Type} (m : gmap Type_ V) (t : Type_) :
  truthy t = false -> weakGet m t = None.
Proof. unfold weakGet. by intros ->. Qed.

Lemma weakGet_insert {V : Type} (m : gmap Type_ V) (k t : Type_) (v : V) :
  truthy k = true ->
  weakGet (<[k:=v]> m) t = if decide (k = t) then Some v else weakGet m t.
Proof.
  intros Hk. unfold weakGet. case_decide as Hd.
  - subst t. by rewrite Hk, lookup_insert_eq.
  - rewrite lookup_insert_ne by done. done.
Qed.

Lemma effectiveType_truthy ctor item :
  truthy ctor = true -> truthy (effectiveType ctor item) = true.
Proof. intros Hc. unfold effectiveType. by destruct (truthy (guardType item)) eqn:Ht. Qed.

(** The loop of [_addTypes] over the entries of the metadata. *)
Lemma _addTypes_loop ctor (items : list GuardItem) :
  truthy ctor = true ->
  forall st, exists st',
    forEach (fun item =>
        let type := if truthy (guardType item) then guardType item else ctor in
        T ← getThis;
        let existing := default [] (weakGet (guards T) type) in
        let method := guardMethod item in
        g ← liftResult (weakSet (guards T) type (existing ++ [method]));
        setGuards g) items st = (Ok (), st') /\
    keeps st st' /\
    forall t,
      weakGet (guards (this st')) t =
      match guardsFor ctor items t with
      | [] => weakGet (guards (this st)) t
      | news => Some (default [] (weakGet (guards (this st)) t) ++ news)
      end.
Proof.
  intros Hctor. induction items as [|item items IH]; intros st.
  - exists st. split; [done|]. split; [apply keeps_refl|done].
  - rewrite forEach_cons. rewrite bind_run. unfold getThis at 1. rewrite bind_run.
    fold (effectiveType ctor item).
    pose proof (effectiveType_truthy ctor item Hctor) as Hty.
    unfold weakSet at 1. rewrite Hty. unfold liftResult at 1. unfold setGuards at 1.
    match goal with |- context [forEach _ items ?s] =>
      destruct (IH s) as (st' & Hrun & Hkeeps & Hget) end.
    exists st'. split; [exact Hrun|]. split.
    { destruct Hkeeps as (? & ? & ?). by repeat split. }
    intros t. rewrite Hget. cbn [this guards]. rewrite weakGet_insert by done.
    unfold guardsFor. rewrite filter_cons.
    destruct (decide (effectiveType ctor item = t)) as [<-|Hne].
    + rewrite fmap_cons. destruct (guardMethod <$> filter _ items) as [|f fs]; [done|].
      f_equal. simpl. by rewrite <- app_assoc.
    + done.
Qed.

(** X9. Guard intersection.  Adding the guards of a class appends them, in
    the order of the class, to the guards of the type each is for (the
    class itself when the decorator named no type), and leaves the rest
    of the state alone; the guard then resolved for a type accepts a value
    exactly when the guards it had and the new ones all accept it. *)
Theorem addTypes_conjoins ctor (items : list GuardItem) st :
  truthy ctor = true ->
  META_GUARDS host ctor = Some items ->
  exists st',
    _addTypes host ctor st = (Ok (), st') /\
    keeps st st' /\
    (forall t,
       weakGet (guards (this st')) t =
       match guardsFor ctor items t with
       | [] => weakGet (guards (this st)) t
       | news => Some (default [] (weakGet (guards (this st)) t) ++ news)
       end) /\
    (forall t old,
       weakGet (guards (this st)) t = Some old ->
       exists g, _getGuard host t st' = (Ok g, st') /\
         forall x, g x = guardtypes.intersect old x
                         && forallb (fun f => f x) (guardsFor ctor items t)).
Proof.
  intros Hctor Hmeta. unfold _addTypes. rewrite bind_run. unfold liftResult at 1.
  unfold getMetadata. rewrite Hctor, Hmeta.
  destruct (_addTypes_loop ctor items Hctor st) as (st' & Hrun & Hkeeps & Hget).
  exists st'. split; [exact Hrun|]. split; [done|]. split; [done|].
  intros t old Hold. specialize (Hget t). rewrite Hold in Hget. cbn [default] in Hget.
  assert (weakGet (guards (this st')) t = Some (old ++ guardsFor ctor items t)) as Hnew.
  { rewrite Hget. destruct (guardsFor ctor items t); [by rewrite app_nil_r|done]. }
  exists (guardtypes.intersect (old ++ guardsFor ctor items t)). split.
  - unfold _getGuard. rewrite bind_run. unfold getThis at 1. rewrite bind_run.
    unfold weakHas. rewrite Hnew. rewrite bool_decide_eq_true_2 by eauto. simpl.
    rewrite bind_run. unfold getThis. by rewrite Hnew.
  - intros x. unfold guardtypes.intersect. by rewrite forallb_app.
Qed.

Lemma _getGuard_falsy (t : Type_) st :
  truthy t = false ->
  exists e, _getGuard host t st = (Err e, st) /\
    (autoadd (options (this st)) = false -> e = UnknownType t).
Proof.
  intros Ht. unfold _getGuard. rewrite bind_run. unfold getThis at 1. rewrite bind_run.
  unfold weakHas. rewrite weakGet_falsy by done.
  rewrite bool_decide_eq_false_2 by (by intros [? ?]). cbn [negb].
  destruct (autoadd (options (this st))) eqn:Hauto; cbn [negb].
  - exists RuntimeTypeError. split; [|done].
    unfold _addTypes. rewrite bind_run. unfold liftResult, getMetadata.
    by rewrite Ht.
  - by exists (UnknownType t).
Qed.

(** X10. [null] and [undefined] are of no use to the registry: adding one
    throws before anything is registered, and resolving one as a type
    throws whatever has been registered, "unknown type" when
    auto-registration is off. *)
Theorem null_and_undefined_unusable (t : Type_) st :
  truthy t = false ->
  (forall ctors, add host (t :: ctors) st = (Err RuntimeTypeError, st)) /\
  (exists e, _getGuard host t st = (Err e, st) /\
     (autoadd (options (this st)) = false -> e = UnknownType t)).
Proof.
  intros Ht. split; [|by apply _getGuard_falsy].
  intros ctors. unfold add. rewrite forEach_cons, bind_run.
  unfold _addTypes at 1. rewrite bind_run. unfold liftResult, getMetadata.
  by rewrite Ht.
Qed.

Lemma mapM_getGuard_falsy (t : Type_) (ts : list Type_) :
  truthy t = false -> t ∈ ts ->
  forall st, exists e st', mapM (_getGuard host) ts st = (Err e, st').
Proof.
  intros Ht. induction ts as [|t' ts IH]; intros Hin st; [by apply elem_of_nil in Hin|].
  rewrite mapM_cons. apply elem_of_cons in Hin as [<-|Hin].
  - destruct (_getGuard_falsy t st Ht) as (e & -> & _). by eauto.
  - destruct (_getGuard host t' st) as [[g|e] st1]; [|by eauto].
    destruct (IH Hin st1) as (e & st' & ->). by eauto.
Qed.

(** X11. A class that names [null] or [undefined] as a parameter type does not
    compile, with auto-registration on or off. *)
Theorem function_rejects_null target st map (r : ref) (t : Type_) :
  truthy t = false ->
  META_METHODS target = Some map ->
  r ∈ parametersOf map ->
  t ∈ deref (heap st) r ->
  exists e st', function_ host target st = (Err e, st').
Proof.
  intros Ht Hmeta Hr Hin. unfold function_. rewrite Hmeta.
  change (length map <? 0) with false. cbv iota. rewrite bind_run.
  destruct (sequenceOf host target map st) as [[l|e] st1] eqn:Hseq; [|by eauto].
  exfalso.
  pose proof (visit_map host (grows st) (fun _ r => t ∉ deref (heap st) r)
                (fun _ => True)) as Hvisit.
  apply Hvisit in Hseq as (_ & Hall & _); [by apply (Hall r)| |apply grows_refl].
  clear -Ht. intros r s res s' Hpre Hone. destruct res as [x|e]; [|done].
  pose proof (_convertParamToUnion_grows _ _ _ _ _ Hone) as Hstep.
  split; [by eapply grows_trans|]. split; [|done]. intros Hin.
  rewrite _convertParamToUnion_run in Hone. cbn zeta in Hone.
  destruct (mapM_getGuard_falsy t (expand (this s) (deref (heap s) r)).1 Ht)
    with (st := {| this := this s;
                   heap := <[r:=(expand (this s) (deref (heap s) r)).1]> (heap s) |})
    as (e & s1 & Hfail).
  { apply expand_incl. destruct Hpre as (_ & _ & Hsub). by apply Hsub. }
  by rewrite Hfail in Hone.
Qed.



End Registry.

(* ===================================================================== *)
(** ** The slot of a parameter *)
(* ===================================================================== *)

Section Slots.

Variable host : Host.

Import guardtypes.

Lemma mapM_getGuard_resolved (ts : list Type_) st (gs : list (value -> bool)) st' :
  autoadd (options (this st)) = false ->
  mapM (_getGuard host) ts st = (Ok gs, st') ->
  gs = resolved (this st) <$> ts /\ st' = st.
Proof.
  intros Hauto. revert gs st'. induction ts as [|t ts IH]; intros gs st'.
  - by intros [= <- <-].
  - rewrite mapM_cons, _getGuard_strict by done.
    destruct (weakGet (guards (this st)) t) as [l|] eqn:Hl; [|done].
    destruct (mapM (_getGuard host) ts st) as [[gs'|e] st1]; [|done].
    destruct (IH gs' st1 eq_refl) as [-> ->]. intros [= <- <-].
    split; [|done]. rewrite fmap_cons. unfold resolved at 2. by rewrite Hl.
Qed.

Lemma union_spec (gs : list (value -> bool)) (x : value) :
  union gs x = true <-> exists g, g ∈ gs /\ g x = true.
Proof.
  unfold union. rewrite existsb_exists. setoid_rewrite list_elem_of_In. done.
Qed.

Lemma matcher_identity (gs : list (value -> bool)) (n : nat) (x : value) :
  matcher gs (replicate n I) x = x.
Proof.
  revert n. induction gs as [|g gs IH]; intros [|n]; simpl; try done.
  destruct (g x); [done|apply IH].
Qed.

Lemma matcher_app (gs1 gs2 : list (value -> bool)) (cs1 cs2 : list (value -> value))
    (x : value) :
  length gs1 = length cs1 ->
  matcher (gs1 ++ gs2) (cs1 ++ cs2) x =
  if union gs1 x then matcher gs1 cs1 x else matcher gs2 cs2 x.
Proof.
  revert cs1. induction gs1 as [|g gs1 IH]; intros [|c cs1]; simpl; try done.
  intros [= Hlen]. destruct (g x); [done|]. by apply IH.
Qed.

(** X14. What a slot accepts.  With auto-registration off, the guard of the
    slot accepts a value exactly when the guards of one of the types of
    the expanded array all accept it; the slot has a matcher exactly when
    the expansion added a type, that is when some conversion that ends at
    a declared type starts from a type that is not declared. *)
Theorem slot_accepts (r : ref) st g m st' :
  autoadd (options (this st)) = false ->
  _convertParamToUnion host r st = (Ok (g, m), st') ->
  let declared := deref (heap st) r in
  let accepted := deref (heap st') r in
  (forall x, g x = true <-> exists t, t ∈ accepted /\ resolved (this st) t x = true) /\
  (m = None <-> accepted = declared) /\
  (m = None <->
   forall t cm, t ∈ declared -> cm ∈ conversionsTo (this st) t ->
     fromType cm ∈ declared).
Proof.
  intros Hauto Hone declared accepted.
  pose proof (_convertParamToUnion_heap _ _ _ _ _ Hone) as (Hheap & _ & _).
  assert (accepted = (expand (this st) declared).1) as Hacc.
  { unfold accepted. by rewrite Hheap, deref_expanded. }
  rewrite _convertParamToUnion_run in Hone. cbn zeta in Hone. fold declared in Hone.
  destruct (mapM _ _ _) as [[gs|e] st1] eqn:Hmap; [|done].
  apply mapM_getGuard_resolved in Hmap as [-> ->]; [|done]. cbn [this] in Hone.
  injection Hone as <- <- _. rewrite <- Hacc.
  assert (length declared = length accepted <-> accepted = declared) as Hlen.
  { split; [|by intros ->]. rewrite Hacc.
    destruct (expand (this st) declared) as [acc conv] eqn:Hexp.
    apply expand_spec in Hexp as (added & -> & _). cbn [fst].
    rewrite length_app, length_fmap. destruct added; [by rewrite app_nil_r|simpl; lia]. }
  split; [|split].
  - intros x. rewrite union_spec. split.
    + intros (g & (t & -> & Ht)%list_elem_of_fmap & Hg). by exists t.
    + intros (t & Ht & Hg). exists (resolved (this st) t).
      split; [|done]. apply list_elem_of_fmap. by exists t.
  - rewrite <- Hlen. destruct (length declared =? length accepted) eqn:Heq.
    + by apply Nat.eqb_eq in Heq.
    + apply Nat.eqb_neq in Heq. done.
  - rewrite expand_stable, <- Hacc, <- Hlen.
    destruct (length declared =? length accepted) eqn:Heq.
    + by apply Nat.eqb_eq in Heq.
    + apply Nat.eqb_neq in Heq. done.
Qed.

(** X15. What the matcher of a slot does.  With auto-registration off: a
    value that the guards of a declared type accept is handed on as it
    is; a value that no declared type accepts, and that the slot accepts,
    is converted by a conversion that ends at a declared type and starts
    from a type, not declared, whose guards accept the value. *)
Theorem slot_converts (r : ref) st g mt st' :
  autoadd (options (this st)) = false ->
  _convertParamToUnion host r st = (Ok (g, Some mt), st') ->
  let declared := deref (heap st) r in
  forall x,
    ((exists t, t ∈ declared /\ resolved (this st) t x = true) -> mt x = x) /\
    ((forall t, t ∈ declared -> resolved (this st) t x = false) ->
     g x = true ->
     exists toType cm,
       toType ∈ declared /\ cm ∈ conversionsTo (this st) toType /\
       (fromType cm ∉ declared) /\
       resolved (this st) (fromType cm) x = true /\
       mt x = convert cm x).
Proof.
  intros Hauto Hone declared x.
  rewrite _convertParamToUnion_run in Hone. cbn zeta in Hone. fold declared in Hone.
  destruct (mapM _ _ _) as [[gs|e] st1] eqn:Hmap; [|done].
  apply mapM_getGuard_resolved in Hmap as [-> ->]; [|done]. cbn [this] in Hone.
  destruct (expand (this st) declared) as [accepted converters] eqn:Hexp.
  cbn [fst snd] in Hone.
  destruct (length declared =? length accepted); [done|]. injection Hone as <- <- _.
  apply expand_spec in Hexp as (added & -> & -> & Hsub & _ & _).
  rewrite fmap_app, matcher_app by (by rewrite !length_fmap).
  assert (union (resolved (this st) <$> declared) x = true <->
          exists t, t ∈ declared /\ resolved (this st) t x = true) as Hdecl.
  { rewrite union_spec. split.
    - intros (g & (t & -> & Ht)%list_elem_of_fmap & Hg). by exists t.
    - intros (t & Ht & Hg). exists (resolved (this st) t).
      split; [|done]. apply list_elem_of_fmap. by exists t. }
  assert (((fun _ : Type_ => I) <$> declared) = replicate (length declared) I) as Hid.
  { generalize declared. clear. intros ts. induction ts as [|t ts IH]; [done|].
    rewrite fmap_cons. cbn [length replicate]. by f_equal. }
  split.
  - intros Hsome. apply Hdecl in Hsome. rewrite Hsome, Hid. apply matcher_identity.
  - intros Hnone Hg.
    assert (union (resolved (this st) <$> declared) x = false) as Hfalse.
    { apply not_true_is_false. intros Hu. apply Hdecl in Hu as (t & Ht & Hacc).
      by rewrite (Hnone t Ht) in Hacc. }
    rewrite Hfalse. unfold union in Hg. rewrite existsb_app in Hg.
    fold (union (resolved (this st) <$> declared) x) in Hg. rewrite Hfalse in Hg.
    cbn [orb] in Hg.
    destruct (matcher_union ((resolved (this st) <$> (fromType <$> added)))
                (convert <$> added) x) as (i & g' & c' & Hi & Hc & Hacc & _ & ->);
      [by rewrite !length_fmap|exact Hg|].
    rewrite !list_lookup_fmap in Hi. rewrite list_lookup_fmap in Hc.
    destruct (added !! i) as [cm|] eqn:Hcm; [|done].
    injection Hi as <-. injection Hc as <-.
    destruct (Hsub cm) as (Hnew & toType & Hto & Hin); [by eapply list_elem_of_lookup_2|].
    by exists toType, cm.
Qed.

End Slots.

Section Growth.

Variable host : Host.

Lemma extends_refl st : extends st st.
Proof.
  repeat split; try done.
  - intros t gs ->. exists []. by rewrite app_nil_r.
  - intros t cs ->. exists []. by rewrite app_nil_r.
Qed.

Lemma extends_trans st1 st2 st3 : extends st1 st2 -> extends st2 st3 -> extends st1 st3.
Proof.
  intros (Hh1 & Ho1 & Hg1 & Hc1) (Hh2 & Ho2 & Hg2 & Hc2).
  split; [congruence|]. split; [congruence|]. split.
  - intros t gs Hgs. destruct (Hg1 t gs Hgs) as [more1 H1].
    destruct (Hg2 t _ H1) as [more2 H2]. exists (more1 ++ more2). by rewrite app_assoc.
  - intros t cs Hcs. destruct (Hc1 t cs Hcs) as [more1 H1].
    destruct (Hc2 t _ H1) as [more2 H2]. exists (more1 ++ more2). by rewrite app_assoc.
Qed.

Lemma extends_guards st (t : Type_) (g : value -> bool) (res : result unit) st' :
  (T ← getThis;
   g' ← liftResult (weakSet (guards T) t (default [] (weakGet (guards T) t) ++ [g]));
   setGuards g') st = (res, st') ->
  extends st st'.
Proof.
  rewrite bind_run. unfold getThis at 1. rewrite bind_run. unfold liftResult, weakSet.
  destruct (truthy t) eqn:Ht; [|intros [= _ <-]; apply extends_refl].
  intros [= _ <-]. split; [done|]. split; [done|]. cbn [this guards conversions]. split.
  - intros t' gs Hgs. rewrite weakGet_insert by done. case_decide as Hd.
    + subst t'. rewrite Hgs. by eexists.
    + exists []. by rewrite app_nil_r.
  - intros t' cs ->. exists []. by rewrite app_nil_r.
Qed.

Lemma extends_conversions st (t : Type_) (c : ConversionMethod) (res : result unit) st' :
  (T ← getThis;
   c' ← liftResult (weakSet (conversions T) t
                      (default [] (weakGet (conversions T) t) ++ [c]));
   setConversions c') st = (res, st') ->
  extends st st'.
Proof.
  rewrite bind_run. unfold getThis at 1. rewrite bind_run. unfold liftResult, weakSet.
  destruct (truthy t) eqn:Ht; [|intros [= _ <-]; apply extends_refl].
  intros [= _ <-]. split; [done|]. split; [done|]. cbn [this guards conversions]. split.
  - intros t' gs ->. exists []. by rewrite app_nil_r.
  - intros t' cs Hcs. rewrite weakGet_insert by done. case_decide as Hd.
    + subst t'. rewrite Hcs. by eexists.
    + exists []. by rewrite app_nil_r.
Qed.

(** X16. The registry only grows.  With auto-registration off, [add] removes
    and reorders nothing, whether it returns or throws: the guards and the
    conversions registered before are a prefix of those registered after,
    type by type; so a registered type stays registered, and the guard it
    resolves to accepts no value that it rejected before. *)
Theorem add_only_grows (ctors : list Type_) st res st' :
  autoadd (options (this st)) = false ->
  add host ctors st = (res, st') ->
  extends st st' /\
  forall t, registered (this st) t ->
    registered (this st') t /\
    forall x, resolved (this st') t x = true -> resolved (this st) t x = true.
Proof.
  intros Hauto Hadd.
  set (R := fun s s' : State => autoadd (options (this s)) = false -> extends s s').
  assert (forall s, R s s) as Hrefl by (intros s _; apply extends_refl).
  assert (forall s1 s2 s3, R s1 s2 -> R s2 s3 -> R s1 s3) as Htrans.
  { intros s1 s2 s3 H12 H23 H1. specialize (H12 H1).
    eapply extends_trans; [exact H12|]. apply H23.
    destruct H12 as (_ & -> & _). exact H1. }
  assert (forall ctor s res1 s', _addTypes host ctor s = (res1, s') -> R s s') as Htypes.
  { intros ctor s res1 s' Hrun Hs. revert Hrun. unfold _addTypes. rewrite bind_run.
    unfold liftResult at 1.
    destruct (getMetadata _ _) as [[map|]|e]; [| |intros [= _ <-]; apply extends_refl].
    - apply (forEach_inv extends extends_refl extends_trans).
      intros item s1 res2 s2 _. apply extends_guards.
    - rewrite bind_run. unfold getThis at 1. rewrite Hs. cbn [andb].
      intros [= _ <-]. apply extends_refl. }
  assert (forall ctor s res1 s', _addConversions host ctor s = (res1, s') -> R s s')
    as Hconvs.
  { intros ctor s res1 s' Hrun _. revert Hrun. unfold _addConversions. rewrite bind_run.
    unfold liftResult at 1.
    destruct (getMetadata _ _) as [map|e]; [|intros [= _ <-]; apply extends_refl].
    apply (forEach_inv extends extends_refl extends_trans).
    intros item s1 res2 s2 _. apply extends_conversions. }
  assert (extends st st') as Hext.
  { revert Hadd Hauto. unfold add. apply (forEach_inv R Hrefl Htrans).
    intros ctor s res1 s' _. apply (bind_inv R Htrans); [apply Htypes|].
    intros []. apply Hconvs. }
  split; [done|]. intros t [gs Hgs]. destruct Hext as (_ & _ & Hg & _).
  destruct (Hg t gs Hgs) as [more Hmore]. split; [by eexists|].
  intros x. unfold resolved, guardtypes.intersect. rewrite Hgs, Hmore. simpl.
  rewrite forallb_app. by intros [? _]%andb_prop.
Qed.

End Growth.

Section Conversions.

Variable host : Host.

(** The loop of [_addConversions] over the entries of the metadata. *)
Lemma _addConversions_loop (items : list ConversionItem) :
  (forall item, item ∈ items -> truthy (itemToType item) = true) ->
  forall st, exists st',
    forEach (fun item =>
        T ← getThis;
        let existing := default [] (weakGet (conversions T) (itemToType item)) in
        let conversion := {| fromType := itemFromType item;
                             convert := conversionMethod item |} in
        c ← liftResult (weakSet (conversions T) (itemToType item) (existing ++ [conversion]));
        setConversions c) items st = (Ok (), st') /\
    heap st' = heap st /\ guards (this st') = guards (this st) /\
    options (this st') = options (this st) /\
    forall t, conversionsTo (this st') t = conversionsTo (this st) t ++ conversionsFor items t.
Proof.
  induction items as [|item items IH]; intros Hto st.
  - exists st. repeat split; try done. intros t. unfold conversionsFor. simpl.
    by rewrite app_nil_r.
  - rewrite forEach_cons. rewrite bind_run. unfold getThis at 1. rewrite bind_run.
    pose proof (Hto item (list_elem_of_here _ _)) as Hty.
    unfold weakSet at 1. rewrite Hty. unfold liftResult at 1. unfold setConversions at 1.
    match goal with |- context [forEach _ items ?s] =>
      destruct (IH (fun i Hi => Hto i (list_elem_of_further _ _ _ Hi)) s)
        as (st' & Hrun & Hheap & Hguards & Hopts & Hget) end.
    exists st'. split; [exact Hrun|]. split; [done|]. split; [done|]. split; [done|].
    intros t. rewrite Hget. unfold conversionsTo. cbn [this conversions].
    rewrite weakGet_insert by done. unfold conversionsFor. rewrite filter_cons.
    destruct (decide (itemToType item = t)) as [<-|Hne].
    + rewrite fmap_cons. simpl. by rewrite <- app_assoc.
    + done.
Qed.

(** X17. Adding the conversions of a class appends each, in the order of the
    class, to the conversions that end at its target type, and leaves the
    guards, the options and the heap alone; an array that holds the target
    type of one of them expands, from then on, to an array that holds its
    source type. *)
Theorem addConversions_appends ctor (items : list ConversionItem) st :
  truthy ctor = true ->
  META_CONVERSIONS host ctor = Some items ->
  (forall item, item ∈ items -> truthy (itemToType item) = true) ->
  exists st',
    _addConversions host ctor st = (Ok (), st') /\
    heap st' = heap st /\ guards (this st') = guards (this st) /\
    options (this st') = options (this st) /\
    (forall t, conversionsTo (this st') t
               = conversionsTo (this st) t ++ conversionsFor items t) /\
    (forall item types, item ∈ items -> itemToType item ∈ types ->
       itemFromType item ∈ (expand (this st') types).1).
Proof.
  intros Hctor Hmeta Hto. unfold _addConversions. rewrite bind_run.
  unfold liftResult at 1, getMetadata. rewrite Hctor, Hmeta.
  destruct (_addConversions_loop items Hto st) as (st' & Hrun & ? & ? & ? & Hget).
  exists st'. split; [exact Hrun|]. repeat (split; [done|]).
  intros item types Hitem Hin. apply elem_of_expand. right.
  exists (itemToType item), (conversionOf item). split; [done|]. split; [|done].
  rewrite Hget. apply elem_of_app. right. unfold conversionsFor.
  apply list_elem_of_fmap. exists item. split; [done|]. by apply list_elem_of_filter.
Qed.

(** Which conversion an added type gets, when several start from it. *)
Lemma pushConversion_first (cms : list ConversionMethod) :
  forall (ts : list Type_) (cs : list (value -> value)),
  length ts = length cs ->
  forall i t, length ts <= i ->
    (foldl pushConversion (ts, cs) cms).1 !! i = Some t ->
    exists cm, firstFrom cms t = Some cm /\
      (foldl pushConversion (ts, cs) cms).2 !! i = Some (convert cm).
Proof.
  induction cms as [|cm cms IH]; intros ts cs Hlen i t Hi.
  - simpl. intros Hnone. apply lookup_lt_Some in Hnone. lia.
  - cbn [foldl]. unfold pushConversion at 2 4.
    destruct (pushConversion_spec cms
                (if notIndexOf ts (fromType cm) then ts ++ [fromType cm] else ts)
                (if notIndexOf ts (fromType cm) then cs ++ [convert cm] else cs))
      as (added & Heq & Hsub & _).
    destruct (notIndexOf ts (fromType cm)) eqn:Hidx.
    + destruct (decide (i = length ts)) as [->|Hne].
      * rewrite Heq. cbn [fst snd]. rewrite <- !app_assoc.
        rewrite lookup_app_r, Nat.sub_diag by done. intros [= <-].
        exists cm. split; [unfold firstFrom; simpl; by rewrite decide_True|].
        by rewrite lookup_app_r, Hlen, Nat.sub_diag by lia.
      * intros Hlook.
        destruct (IH (ts ++ [fromType cm]) (cs ++ [convert cm])) with (i := i) (t := t)
          as (cm' & Hfirst & Hconv); [by rewrite !length_app, Hlen| |done|].
        { rewrite length_app. simpl. lia. }
        exists cm'. split; [|done]. unfold firstFrom in *. simpl.
        rewrite decide_False; [by destruct (list_find _ cms) as [[j c]|]|].
        intros Hsame. rewrite Heq in Hlook. cbn [fst] in Hlook.
        rewrite lookup_app_r in Hlook by (rewrite length_app; simpl; lia).
        apply list_elem_of_lookup_2, list_elem_of_fmap in Hlook as (c & -> & Hc).
        apply Hsub in Hc as [_ Hc]. apply Hc. rewrite <- Hsame.
        apply elem_of_app. right. left.
    + apply notIndexOf_false in Hidx. intros Hlook.
      destruct (IH ts cs Hlen i t Hi Hlook) as (cm' & Hfirst & Hconv).
      exists cm'. split; [|done]. unfold firstFrom in *. simpl.
      rewrite decide_False; [by destruct (list_find _ cms) as [[j c]|]|].
      intros Hsame. rewrite Heq in Hlook. cbn [fst] in Hlook.
      rewrite lookup_app_r in Hlook by done.
      apply list_elem_of_lookup_2, list_elem_of_fmap in Hlook as (c & -> & Hc).
      apply Hsub in Hc as [_ Hc]. apply Hc. by rewrite <- Hsame.
Qed.

(** X18. The first conversion wins.  A type that the expansion adds is
    converted by the first conversion starting from it that the expansion
    meets: conversions are met in the order of the declared types they end
    at and, for one declared type, in the order of their registration; a
    later conversion from the same type is never used. *)
Theorem first_conversion_wins (T : Typed) (types : list Type_) (i : nat) (t : Type_) :
  length types <= i ->
  (expand T types).1 !! i = Some t ->
  exists cm,
    firstFrom (conversionsInto T types) t = Some cm /\
    (expand T types).2 !! i = Some (convert cm).
Proof.
  rewrite expand_flat. apply pushConversion_first. by rewrite length_fmap.
Qed.

End Conversions.

Section SampleRuns.

Import DefaultTypes Readme Samples guardtypes.

Lemma function_length_and_arity_witness :
  let r := function_ host (Times number pair) ready in
  function_ host (Times number pair) ready = (Ok (compiled r), r.2) /\
  exists map,
    META_METHODS (Times number pair) = Some map /\
    fnLength (compiled r) = maxArity (signaturesOf map) /\
    fnName (compiled r) = targetName (Times number pair).
Proof.
  intros r.
  assert (function_ host (Times number pair) ready = (Ok (compiled r), r.2)) as Hfn
    by (vm_compute; reflexivity).
  split; [exact Hfn|].
  destruct (function_length_and_arity host _ _ _ _ Hfn) as (map & Hmeta & Hlen & Hname & _).
  exists map. exact (conj Hmeta (conj Hlen Hname)).
Defined.

Example times_length_and_name :
  let r := function_ host (Times number pair) ready in
  fnLength (compiled r) = 2 /\ fnName (compiled r) = "Times".
Proof. split; vm_compute; reflexivity. Qed.


Lemma function_keeps_registry_witness :
  let r := function_ host (Times number pair) ready in
  autoadd (options (this ready)) = false /\ this r.2 = this ready.
Proof.
  intros r.
  assert (autoadd (options (this ready)) = false) as Hauto by (vm_compute; reflexivity).
  split; [exact Hauto|].
  exact (function_keeps_registry host (Times number pair) ready r.1 r.2 Hauto
           (surjective_pairing r)).
Defined.

Lemma function_outcomes_witness :
  (exists fn st', function_ host (Times number pair) ready = (Ok fn, st')) \/
  (exists t st', ~ registered (this ready) t /\
     function_ host (Times number pair) ready = (Err (UnknownType t), st')).
Proof.
  apply (function_outcomes host (Times number pair) ready
           [("number", [[0; 1]]); ("pair", [[2; 3]])]).
  - vm_compute. reflexivity.
  - vm_compute. reflexivity.
  - split; [discriminate|]. intros entry Hentry.
    apply elem_of_cons in Hentry as [->|Hentry]; [discriminate|].
    apply elem_of_cons in Hentry as [->|Hentry]; [discriminate|].
    by apply elem_of_nil in Hentry.
Defined.

Lemma function_reads_only_witness :
  let r := function_ host Sole soleReady in
  r.2 = soleReady.
Proof.
  intros r.
  assert (forallb (fun p =>
            forallb (fun t => match conversionsTo (this soleReady) t with
                              | [] => true
                              | _ => false
                              end) (deref (heap soleReady) p))
            (parametersOf [("number", [[0; 1]])]) = true) as Hcheck
    by (vm_compute; reflexivity).
  assert (autoadd (options (this soleReady)) = false) as Hauto by (vm_compute; reflexivity).
  assert (META_METHODS Sole = Some [("number", [[0; 1]])]) as Hmeta
    by (vm_compute; reflexivity).
  refine (function_reads_only host Sole soleReady [("number", [[0; 1]])] r.1 r.2
            Hauto Hmeta _ (surjective_pairing r)).
  rewrite forallb_forall in Hcheck.
  intros p t cm Hp Ht Hcm.
  apply list_elem_of_In, Hcheck in Hp. rewrite forallb_forall in Hp.
  apply list_elem_of_In, Hp in Ht.
  destruct (conversionsTo (this soleReady) t) as [|c cs]; [|discriminate Ht].
  apply elem_of_nil in Hcm. destruct Hcm.
Defined.

Lemma addTypes_conjoins_witness :
  exists st',
    _addTypes host Pair fresh = (Ok (), st') /\
    keeps fresh st' /\
    forall t,
      weakGet (guards (this st')) t =
      match guardsFor Pair [ {| guardKey := "isPair"; guardType := TUndefined;
                                guardMethod := isPair |} ] t with
      | [] => weakGet (guards (this fresh)) t
      | news => Some (default [] (weakGet (guards (this fresh)) t) ++ news)
      end.
Proof.
  destruct (addTypes_conjoins host Pair
              [ {| guardKey := "isPair"; guardType := TUndefined; guardMethod := isPair |} ]
              fresh eq_refl eq_refl) as (st' & Hrun & Hkeeps & Hget & _).
  exists st'. exact (conj Hrun (conj Hkeeps Hget)).
Defined.

Lemma null_and_undefined_unusable_witness :
  (forall ctors, add host (TNull :: ctors) ready = (Err RuntimeTypeError, ready)) /\
  (exists e, _getGuard host TUndefined ready = (Err e, ready) /\
     (autoadd (options (this ready)) = false -> e = UnknownType TUndefined)).
Proof.
  split.
  - exact (proj1 (null_and_undefined_unusable host TNull ready eq_refl)).
  - exact (proj2 (null_and_undefined_unusable host TUndefined ready eq_refl)).
Defined.

Lemma function_rejects_null_witness :
  exists e st', function_ host Nullish nullishReady = (Err e, st').
Proof.
  apply (function_rejects_null host Nullish nullishReady [("n", [[0]])] 0 TNull).
  - reflexivity.
  - vm_compute. reflexivity.
  - vm_compute. left.
  - vm_compute. left.
Defined.

Example nullish_unknown :
  (function_ host Nullish nullishReady).1 = Err (UnknownType TNull).
Proof. vm_compute. reflexivity. Qed.



Lemma slot_accepts_witness :
  let r := _convertParamToUnion host 2 ready in
  let slot := okOr (fun _ => false, None) r.1 in
  _convertParamToUnion host 2 ready = (Ok (slot.1, slot.2), r.2) /\
  forall x, slot.1 x = true <->
    exists t, t ∈ deref (heap r.2) 2 /\ resolved (this ready) t x = true.
Proof.
  intros r slot.
  assert (autoadd (options (this ready)) = false) as Hauto by (vm_compute; reflexivity).
  assert (_convertParamToUnion host 2 ready = (Ok (slot.1, slot.2), r.2)) as Hone
    by (vm_compute; reflexivity).
  split; [exact Hone|].
  exact (proj1 (slot_accepts host 2 ready slot.1 slot.2 r.2 Hauto Hone)).
Defined.

Lemma slot_converts_witness :
  let r := _convertParamToUnion host 2 ready in
  let slot := okOr (fun _ => false, None) r.1 in
  let mt := default (fun x => x) slot.2 in
  _convertParamToUnion host 2 ready = (Ok (slot.1, Some mt), r.2) /\
  forall x,
    (exists t, t ∈ deref (heap ready) 2 /\ resolved (this ready) t x = true) -> mt x = x.
Proof.
  intros r slot mt.
  assert (autoadd (options (this ready)) = false) as Hauto by (vm_compute; reflexivity).
  assert (_convertParamToUnion host 2 ready = (Ok (slot.1, Some mt), r.2)) as Hone
    by (vm_compute; reflexivity).
  split; [exact Hone|].
  exact (fun x => proj1 (slot_converts host 2 ready slot.1 mt r.2 Hauto Hone x)).
Defined.

Example pair_slot_converts_numbers :
  let r := _convertParamToUnion host 2 ready in
  let slot := okOr (fun _ => false, None) r.1 in
  slot.1 (VNumber 3) = true /\ slot.1 (VString "3") = false /\
  default (fun x => x) slot.2 (VNumber 3) = newPair 3 0 /\
  default (fun x => x) slot.2 (newPair 1 2) = newPair 1 2.
Proof. repeat split; vm_compute; reflexivity. Qed.

Lemma add_only_grows_witness :
  let r := add host [Pair] fresh in
  extends fresh r.2 /\
  forall t, registered (this fresh) t ->
    registered (this r.2) t /\
    forall x, resolved (this r.2) t x = true -> resolved (this fresh) t x = true.
Proof.
  intros r.
  assert (autoadd (options (this fresh)) = false) as Hauto by (vm_compute; reflexivity).
  exact (add_only_grows host [Pair] fresh r.1 r.2 Hauto (surjective_pairing r)).
Defined.

Lemma addConversions_appends_witness :
  exists st',
    _addConversions host Pair fresh = (Ok (), st') /\
    heap st' = heap fresh /\ guards (this st') = guards (this fresh) /\
    Number ∈ (expand (this st') [Pair]).1.
Proof.
  destruct (addConversions_appends host Pair
              [ {| conversionKey := "fromNumber"; itemFromType := Number;
                   itemToType := Pair; conversionMethod := fromNumber |} ]
              fresh eq_refl eq_refl) as (st' & Hrun & Hheap & Hguards & _ & _ & Hexp).
  - intros item Hitem.
    apply elem_of_cons in Hitem as [->|Hitem]; [reflexivity|by apply elem_of_nil in Hitem].
  - exists st'. split; [exact Hrun|]. split; [exact Hheap|]. split; [exact Hguards|].
    apply (Hexp {| conversionKey := "fromNumber"; itemFromType := Number;
                   itemToType := Pair; conversionMethod := fromNumber |} [Pair]); left.
Defined.

Lemma first_conversion_wins_witness :
  exists cm,
    firstFrom (conversionsInto (this ready) [Pair]) Number = Some cm /\
    (expand (this ready) [Pair]).2 !! 1 = Some (convert cm).
Proof.
  apply (first_conversion_wins (this ready) [Pair] 1 Number).
  - simpl. lia.
  - vm_compute. reflexivity.
Defined.

End SampleRuns.

(* ===================================================================== *)
(** ** Conversion edges, and compiling more than once *)
(* ===================================================================== *)

Section Edges.

Lemma edge_conversionsTo (T : Typed) (toType : Type_) (cm : ConversionMethod) :
  edge T toType cm <-> cm ∈ conversionsTo T toType.
Proof.
  unfold edge, conversionsTo, weakGet. destruct (truthy toType).
  - split.
    + by intros (_ & cms & -> & Hin).
    + intros Hin. split; [done|].
      destruct (conversions T !! toType) as [cms|]; [by exists cms|].
      by apply elem_of_nil in Hin.
  - split; [by intros [? _]|by intros ?%elem_of_nil].
Qed.

Lemma edge_conversions (T T' : Typed) (toType : Type_) (cm : ConversionMethod) :
  conversions T' = conversions T -> edge T' toType cm <-> edge T toType cm.
Proof. unfold edge. by intros ->. Qed.

(** The expansion of an array is one hop from it. *)
Lemma expand_oneHop (T : Typed) (declared : list Type_) :
  exists added,
    oneHop T declared (expand T declared).1 added /\
    (expand T declared).2 = ((fun _ => I) <$> declared) ++ (convert <$> added).
Proof.
  destruct (expand T declared) as [accepted converters] eqn:Hexp.
  apply expand_spec in Hexp as (added & -> & -> & Hsub & Hall & Hnd).
  exists added. split; [|done]. split; [done|]. split; [done|]. split.
  - intros cm Hcm. destruct (Hsub cm Hcm) as (Hnew & toType & Hto & Hedge).
    split; [done|]. exists toType. split; [done|]. by apply edge_conversionsTo.
  - intros toType cm Hto Hedge%edge_conversionsTo. by apply (Hall toType cm).
Qed.

Lemma oneHop_longer (T : Typed) (declared accepted : list Type_)
    (added : list ConversionMethod) (toType : Type_) (cm : ConversionMethod) :
  oneHop T declared accepted added ->
  toType ∈ declared -> edge T toType cm -> fromType cm ∉ declared ->
  length declared < length accepted.
Proof.
  intros (-> & _ & _ & Hall) Hto Hedge Hnew.
  specialize (Hall toType cm Hto Hedge).
  apply elem_of_app in Hall as [?|Hin]; [done|].
  rewrite length_app. destruct added; [by apply elem_of_nil in Hin|simpl; lia].
Qed.

Lemma reaches_expand (T : Typed) (types : list Type_) (t : Type_) :
  t ∈ (expand T types).1 -> reaches T types t.
Proof.
  intros [Hin|(toType & cm & Hto & Hcm & <-)]%elem_of_expand.
  - by apply reaches_declared.
  - apply reaches_hop with toType; [by apply reaches_declared|].
    by apply edge_conversionsTo.
Qed.

Lemma reaches_trans (T : Typed) (types types' : list Type_) (t : Type_) :
  (forall x, x ∈ types' -> reaches T types x) ->
  reaches T types' t -> reaches T types t.
Proof.
  intros Hall. induction 1 as [t Hin|toType cm _ IH Hedge]; [by apply Hall|].
  by apply reaches_hop with toType.
Qed.

End Edges.

(** The loops of [function] over the parameter arrays, with the arrays
    visited so far: an invariant [Inv] of the state and of what was
    visited, and what holds of the state and the exception when a visit
    throws. *)
Section Trace.

Variable host : Host.
Variable inside : ref -> Prop.
Variable Inv : list ref -> State -> Prop.
Variable Fail : State -> exn -> Prop.

Hypothesis step : forall visited r st res st',
  inside r -> Inv visited st ->
  _convertParamToUnion host r st = (res, st') ->
  match res with
  | Ok _ => Inv (visited ++ [r]) st'
  | Err e => Fail st' e
  end.

Lemma trace_params (params : list ref) :
  forall visited st res st',
  (forall r, r ∈ params -> inside r) -> Inv visited st ->
  mapM (_convertParamToUnion host) params st = (res, st') ->
  match res with
  | Ok _ => Inv (visited ++ params) st'
  | Err e => Fail st' e
  end.
Proof.
  induction params as [|r params IH]; intros visited st res st' Hin Hinv.
  - intros [= <- <-]. by rewrite app_nil_r.
  - rewrite mapM_cons.
    assert (inside r) as Hr by (apply Hin; left).
    assert (forall r', r' ∈ params -> inside r') as Hrest by (intros r' ?; apply Hin; by right).
    destruct (_convertParamToUnion host r st) as [[x|e] st1] eqn:Hone.
    + pose proof (step visited r st _ _ Hr Hinv Hone) as Hinv1. cbv beta iota in Hinv1.
      destruct (mapM _ params st1) as [[xs|e] st2] eqn:Hmap.
      * intros [= <- <-]. pose proof (IH _ _ _ _ Hrest Hinv1 Hmap) as Hend.
        cbv beta iota in Hend. by rewrite <- app_assoc in Hend.
      * intros [= <- <-]. exact (IH _ _ _ _ Hrest Hinv1 Hmap).
    + intros [= <- <-]. exact (step visited r st _ _ Hr Hinv Hone).
Qed.

Lemma trace_eachSignature method l (params : list ref) visited st res st' :
  (forall r, r ∈ params -> inside r) -> Inv visited st ->
  eachSignature host method l params st = (res, st') ->
  match res with
  | Ok _ => Inv (visited ++ params) st'
  | Err e => Fail st' e
  end.
Proof.
  intros Hin Hinv. unfold eachSignature, _getSignatureGuard. rewrite !bind_run.
  destruct (mapM _ params st) as [[gms|e] st1] eqn:Hmap.
  - intros [= <- <-]. exact (trace_params _ _ _ _ _ Hin Hinv Hmap).
  - intros [= <- <-]. exact (trace_params _ _ _ _ _ Hin Hinv Hmap).
Qed.

Lemma trace_signatures method (sigs : list (list ref)) :
  forall l visited st res st',
  (forall r, r ∈ mjoin sigs -> inside r) -> Inv visited st ->
  foldM (eachSignature host method) l sigs st = (res, st') ->
  match res with
  | Ok _ => Inv (visited ++ mjoin sigs) st'
  | Err e => Fail st' e
  end.
Proof.
  induction sigs as [|sig sigs IH]; intros l visited st res st' Hin Hinv.
  - intros [= <- <-]. by rewrite app_nil_r.
  - rewrite foldM_cons. cbn [mjoin list_join] in *.
    assert (forall r, r ∈ sig -> inside r) as Hsig.
    { intros r ?. apply Hin, elem_of_app. by left. }
    assert (forall r, r ∈ mjoin sigs -> inside r) as Hrest.
    { intros r ?. apply Hin, elem_of_app. by right. }
    destruct (eachSignature host method l sig st) as [[l1|e] st1] eqn:Hone.
    + pose proof (trace_eachSignature _ _ _ _ _ _ _ Hsig Hinv Hone) as Hinv1.
      cbv beta iota in Hinv1. intros Hfold.
      pose proof (IH _ _ _ _ _ Hrest Hinv1 Hfold) as Hend.
      destruct res; [by rewrite <- app_assoc in Hend|done].
    + intros [= <- <-]. exact (trace_eachSignature _ _ _ _ _ _ _ Hsig Hinv Hone).
Qed.

Lemma trace_map target (map : list (string * list (list ref))) :
  forall l visited st res st',
  (forall r, r ∈ parametersOf map -> inside r) -> Inv visited st ->
  foldM (eachKey host target) l map st = (res, st') ->
  match res with
  | Ok _ => Inv (visited ++ parametersOf map) st'
  | Err e => Fail st' e
  end.
Proof.
  induction map as [|[key sigs] map IH]; intros l visited st res st' Hin Hinv.
  - intros [= <- <-]. by rewrite app_nil_r.
  - rewrite foldM_cons. rewrite parametersOf_cons in *. unfold eachKey at 1.
    assert (forall r, r ∈ mjoin sigs -> inside r) as Hsigs.
    { intros r ?. apply Hin, elem_of_app. by left. }
    assert (forall r, r ∈ parametersOf map -> inside r) as Hrest.
    { intros r ?. apply Hin, elem_of_app. by right. }
    destruct (foldM (eachSignature _ _) l sigs st) as [[l1|e] st1] eqn:Hone.
    + pose proof (trace_signatures _ _ _ _ _ _ _ Hsigs Hinv Hone) as Hinv1.
      cbv beta iota in Hinv1. intros Hfold.
      pose proof (IH _ _ _ _ _ Hrest Hinv1 Hfold) as Hend.
      destruct res; [by rewrite <- app_assoc in Hend|done].
    + intros [= <- <-]. exact (trace_signatures _ _ _ _ _ _ _ Hsigs Hinv Hone).
Qed.

End Trace.

Section Repeated.

Variable host : Host.

(** With auto-registration off, compiling a signature map leaves the
    registry alone and the arrays within what conversion edges lead to
    them from; when it throws, it throws "unknown type" for a type without
    guards that one of the arrays of the map then holds. *)
Lemma sequenceOf_unknown target (map : list (string * list (list ref))) st res st' :
  autoadd (options (this st)) = false ->
  sequenceOf host target map st = (res, st') ->
  match res with
  | Ok _ =>
      this st' = this st /\
      forall r x, x ∈ deref (heap st') r -> reaches (this st) (deref (heap st) r) x
  | Err e =>
      exists t r,
        r ∈ parametersOf map /\ e = UnknownType t /\ ~ registered (this st) t /\
        t ∈ deref (heap st') r /\ reaches (this st) (deref (heap st) r) t
  end.
Proof.
  intros Hauto Hseq.
  set (Inv := fun (_ : list ref) (s : State) =>
    this s = this st /\
    forall r x, x ∈ deref (heap s) r -> reaches (this st) (deref (heap st) r) x).
  set (Fail := fun (s : State) (e : exn) => exists t r,
    r ∈ parametersOf map /\ e = UnknownType t /\ ~ registered (this st) t /\
    t ∈ deref (heap s) r /\ reaches (this st) (deref (heap st) r) t).
  assert (forall visited r s res1 s',
            r ∈ parametersOf map -> Inv visited s ->
            _convertParamToUnion host r s = (res1, s') ->
            match res1 with
            | Ok _ => Inv (visited ++ [r]) s'
            | Err e => Fail s' e
            end) as Hstep.
  { clear Hseq res st'. intros visited r s res s' Hr [Hthis Hreach].
    rewrite _convertParamToUnion_run. cbn zeta.
    destruct (mapM_getGuard_strict host (expand (this s) (deref (heap s) r)).1
                {| this := this s;
                   heap := <[r:=(expand (this s) (deref (heap s) r)).1]> (heap s) |})
      as (res1 & -> & Hres); [simpl; by rewrite Hthis|].
    simpl in Hres. rewrite Hthis in *.
    assert (forall x, x ∈ (expand (this st) (deref (heap s) r)).1 ->
              reaches (this st) (deref (heap st) r) x) as Hnew.
    { intros x Hx%reaches_expand. eapply reaches_trans; [|exact Hx]. apply Hreach. }
    destruct res1 as [gs|e].
    - intros [= <- <-]. split; [done|]. intros r' x. simpl. rewrite deref_insert.
      case_decide as Hcase; [|apply Hreach]. destruct Hcase as [-> _]. apply Hnew.
    - intros [= <- <-]. destruct Hres as (t & Hin & Hun & ->).
      exists t, r. split; [done|]. split; [done|]. split; [done|].
      simpl. rewrite deref_expanded. split; [done|by apply Hnew]. }
  assert (Inv [] st) as Hinit.
  { split; [done|]. intros r x. apply reaches_declared. }
  exact (trace_map host _ Inv Fail Hstep target map _ [] st res st'
           (fun r Hr => Hr) Hinit Hseq).
Qed.



Lemma getKey_signaturesOf (map : list (string * list (list ref))) (key : string)
    (sigs : list (list ref)) (sig : list ref) :
  getKey map key = Some sigs -> sig ∈ sigs -> (key, sig) ∈ signaturesOf map.
Proof.
  induction map as [|[k w] map IH]; [done|]. rewrite getKey_cons.
  change (signaturesOf ((k, w) :: map))
    with (((fun s => (k, s)) <$> w) ++ signaturesOf map).
  case_decide as Hk.
  - intros [= ->] Hin. subst k. apply elem_of_app. left.
    apply list_elem_of_fmap. by exists sig.
  - intros Hget Hin. apply elem_of_app. right. by apply IH.
Qed.

End Repeated.

(* ===================================================================== *)
(** ** The slot of a parameter and the arrays of the metadata *)
(* ===================================================================== *)

Section Arrays.

Variable host : Host.


(** C10. Compiling writes to its input.  The decorator stores the very
    array it is given: its address is among the parameters of the
    metadata, and the array is as it was.  [_convertParamToUnion] writes
    at the address it is given and nowhere else, whether it then returns
    or throws: the array there becomes the array it was followed by the
    source types of the registry's conversion edges that end at its types,
    and is longer than before as soon as one such edge starts from a type
    it did not hold.  So after [function] every parameter array of the
    class holds what it held and the source type of every edge that ends
    at one of its types; and a second [function] on the class starts from
    these arrays: after it they hold the source types of the edges that
    end at the types added by the first. *)
Theorem C10_compiling_expands_in_place :
  (forall (paramTypes : list SignatureArg) design key
          (meta : option (list (string * list (list ref)))) (h : list (list Type_))
          (i : nat) (a : ref),
     paramTypes !! i = Some (TypeArray a) ->
     a ∈ parametersOf (default [] (signature paramTypes true design key meta h).1) /\
     (a < length h -> deref (signature paramTypes true design key meta h).2 a = deref h a)) /\
  (forall (r : ref) st (res : result ((value -> bool) * option (value -> value))) st',
     _convertParamToUnion host r st = (res, st') ->
     (forall r', r' <> r -> deref (heap st') r' = deref (heap st) r') /\
     (exists added, oneHop (this st) (deref (heap st) r) (deref (heap st') r) added) /\
     (forall toType cm,
        toType ∈ deref (heap st) r -> edge (this st) toType cm ->
        fromType cm ∉ deref (heap st) r ->
        length (deref (heap st) r) < length (deref (heap st') r))) /\
  (forall target st fn st' map,
     function_ host target st = (Ok fn, st') ->
     META_METHODS target = Some map ->
     forall r, r ∈ parametersOf map ->
       deref (heap st) r ⊆ deref (heap st') r /\
       forall toType cm,
         toType ∈ deref (heap st) r -> edge (this st) toType cm ->
         fromType cm ∈ deref (heap st') r) /\
  (forall target st fn st' fn' st'' map,
     function_ host target st = (Ok fn, st') ->
     function_ host target st' = (Ok fn', st'') ->
     META_METHODS target = Some map ->
     forall r toType cm cm',
       r ∈ parametersOf map ->
       toType ∈ deref (heap st) r -> edge (this st) toType cm ->
       edge (this st) (fromType cm) cm' ->
       fromType cm' ∈ deref (heap st'') r).
Proof.
  assert (forall target st fn st' map,
            function_ host target st = (Ok fn, st') ->
            META_METHODS target = Some map ->
            grows st st' /\
            forall r, r ∈ parametersOf map ->
              forall toType cm,
                toType ∈ deref (heap st) r -> edge (this st) toType cm ->
                fromType cm ∈ deref (heap st') r) as Honce.
  { intros target st fn st' map (map' & l & Hmap & Hseq & _)%function_Ok Hmeta.
    rewrite Hmeta in Hmap. injection Hmap as <-.
    apply sequenceOf_expands in Hseq as [Hgrows Hsub]. split; [done|].
    intros r Hr toType cm Hto Hedge. apply (Hsub r Hr), elem_of_expand. right.
    exists toType, cm. split; [done|]. split; [by apply edge_conversionsTo|done]. }
  split; [|split; [|split]].
  - intros paramTypes design key meta h i a Hi. unfold signature.
    assert ((length paramTypes <? 1) = false) as ->.
    { apply Nat.ltb_ge. apply lookup_lt_Some in Hi. lia. }
    destruct (toParameter_spec paramTypes [] h) as (new & fresh & -> & _ & Hall).
    specialize (Hall i _ Hi). cbn [fst snd app default] in *. split.
    + unfold parametersOf. apply list_elem_of_bind. exists (key, new). split.
      * by eapply list_elem_of_lookup_2.
      * eapply getKey_signaturesOf; [apply getKey_setKey|left].
    + intros Ha. unfold deref. by rewrite lookup_app_l.
  - intros r st res st' Hone.
    apply _convertParamToUnion_heap in Hone as (Hheap & _ & _). rewrite Hheap.
    destruct (expand_oneHop (this st) (deref (heap st) r)) as (added & Hhop & _).
    rewrite deref_expanded. split; [|split].
    + intros r' Hne. rewrite deref_insert. by rewrite decide_False by (by intros [? _]).
    + by exists added.
    + intros toType cm. by apply oneHop_longer with added.
  - intros target st fn st' map Hfn Hmeta r Hr.
    destruct (Honce _ _ _ _ _ Hfn Hmeta) as [(_ & _ & Hsub) Hedges].
    split; [apply Hsub|by apply Hedges].
  - intros target st fn st' fn' st'' map Hfn Hfn' Hmeta r toType cm cm' Hr Hto Hedge Hedge'.
    destruct (Honce _ _ _ _ _ Hfn Hmeta) as [(Hconv & _ & _) Hfirst].
    destruct (Honce _ _ _ _ _ Hfn' Hmeta) as [_ Hsecond].
    apply (Hsecond r Hr (fromType cm) cm'); [by apply (Hfirst r Hr toType cm)|].
    by apply (edge_conversions (this st)).
Qed.

End Arrays.

Section Unknown.

Variable host : Host.

(** C4. Unknown types fail at compile time, never at call time.  With
    auto-registration off, a class one of whose parameter arrays holds a
    type without guards, or a type that a conversion edge to one of its
    types starts from, does not compile: [function] returns no function
    and throws "unknown type" with the name of a type without guards that
    one of the parameter arrays of the class then holds, declared there or
    added by conversion; it is the type in question when no other type
    that the arrays can come to hold is without guards.  And no call of a
    function that [function] did return throws "unknown type". *)
Theorem C4_unknown_type_at_compile_time :
  (forall target st map (r : ref) t,
     autoadd (options (this st)) = false ->
     META_METHODS target = Some map ->
     r ∈ parametersOf map ->
     ((t ∈ deref (heap st) r) \/
      (exists toType cm, toType ∈ deref (heap st) r /\
         edge (this st) toType cm /\ fromType cm = t)) ->
     ~ registered (this st) t ->
     exists t' r' st',
       function_ host target st = (Err (UnknownType t'), st') /\
       ~ registered (this st) t' /\
       r' ∈ parametersOf map /\
       t' ∈ deref (heap st') r' /\
       reaches (this st) (deref (heap st) r') t' /\
       ((forall r'' t'',
           r'' ∈ parametersOf map -> reaches (this st) (deref (heap st) r'') t'' ->
           ~ registered (this st) t'' -> t'' = t) ->
        t' = t)) /\
  (forall target st fn st' args t,
     function_ host target st = (Ok fn, st') ->
     call fn args <> Err (UnknownType t)).
Proof.
  split.
  - intros target st map r t Hauto Hmeta Hr Ht Hunknown.
    assert (t ∈ (expand (this st) (deref (heap st) r)).1) as Hexpanded.
    { apply elem_of_expand. destruct Ht as [?|(toType & cm & ? & ?%edge_conversionsTo & ?)].
      - by left.
      - right. by exists toType, cm. }
    unfold function_. rewrite Hmeta. change (length map <? 0) with false. cbv iota.
    rewrite bind_run. destruct (sequenceOf host target map st) as [[l|e] st1] eqn:Hseq.
    + exfalso. apply Hunknown.
      pose proof (sequenceOf_strict _ _ _ _ _ _ Hauto Hseq) as [_ Hreg].
      pose proof (sequenceOf_expands _ _ _ _ _ _ Hseq) as [_ Hexp].
      specialize (Hreg r Hr). rewrite Forall_forall in Hreg.
      by apply Hreg, (Hexp r Hr).
    + destruct (sequenceOf_unknown _ _ _ _ _ _ Hauto Hseq)
        as (t' & r' & Hr' & -> & Hun & Hin & Hreach).
      exists t', r', st1. split; [done|]. split; [done|]. split; [done|].
      split; [done|]. split; [done|]. intros Honly. by apply (Honly r' t').
  - intros target st fn st' args t Hfn Hcall.
    apply (call_Err _ _ _ _ _ _ _ Hfn) in Hcall.
    by rewrite isNoMatch_UnknownType in Hcall.
Qed.

(** Where no edge ends at a type of the array, nothing can be added. *)
Lemma reaches_closed (T : Typed) (types : list Type_) (t : Type_) :
  (forall x cm, x ∈ types -> ~ edge T x cm) ->
  reaches T types t -> t ∈ types.
Proof.
  intros Hnone. induction 1 as [t Hin|toType cm _ IH Hedge]; [done|].
  by destruct (Hnone toType cm IH).
Qed.

End Unknown.

(* ===================================================================== *)
(** ** The classes of the readme and of the samples, compiled *)
(* ===================================================================== *)

Section Runs.

Import DefaultTypes Readme Samples guardtypes.


Example readme_pair_converters :
  (expand (this ready) (deref (heap ready) 2)).1 = [Pair; Number] /\
  (expand (this ready) (deref (heap ready) 2)).2 = [I; fromNumber].
Proof. split; vm_compute; reflexivity. Qed.



Lemma C4_unknown_type_witness :
  (exists st', function_ host Stranger strangerReady = (Err (UnknownType Foo), st')) /\
  (let r := function_ host (Times number pair) ready in
   function_ host (Times number pair) ready = (Ok (compiled r), r.2) /\
   call (compiled r) [VNumber 3; VString "6"] <> Err (UnknownType Foo)).
Proof.
  split.
  - assert (deref (heap strangerReady) 0 = [Foo]) as Hdecl by (vm_compute; reflexivity).
    assert (conversions (this strangerReady) !! Foo = None) as Hnone
      by (vm_compute; reflexivity).
    assert (autoadd (options (this strangerReady)) = false) as Hauto
      by (vm_compute; reflexivity).
    assert (META_METHODS Stranger = Some [("s", [[0]])]) as Hmeta
      by (vm_compute; reflexivity).
    assert (0 ∈ parametersOf [("s", [[0]])]) as Hzero by (vm_compute; left).
    assert (Foo ∈ deref (heap strangerReady) 0) as Hin by (vm_compute; left).
    assert (~ registered (this strangerReady) Foo) as Hunknown.
    { unfold registered. vm_compute. intros [gs Hgs]. discriminate Hgs. }
    destruct (proj1 (C4_unknown_type_at_compile_time host) Stranger strangerReady
                [("s", [[0]])] 0 Foo Hauto Hmeta Hzero (or_introl Hin) Hunknown)
      as (t' & r' & st' & Hrun & _ & _ & _ & _ & Honly).
    exists st'. rewrite <- Honly; [exact Hrun|].
    intros r'' t'' Hr'' Hreach _.
    assert (r'' = 0) as ->.
    { vm_compute in Hr''. by apply list_elem_of_singleton in Hr''. }
    apply reaches_closed in Hreach.
    + rewrite Hdecl in Hreach. by apply list_elem_of_singleton in Hreach.
    + intros x cm' Hx [_ (cms & Hget & _)]. rewrite Hdecl in Hx.
      apply list_elem_of_singleton in Hx as ->. rewrite Hnone in Hget. discriminate Hget.
  - intros r.
    assert (function_ host (Times number pair) ready = (Ok (compiled r), r.2)) as Hfn
      by (vm_compute; reflexivity).
    split; [exact Hfn|].
    exact (proj2 (C4_unknown_type_at_compile_time host) _ _ _ _ _ _ Hfn).
Defined.

(** C5. On the function of the readme no candidate accepts [(3, "6")], and
    none accepts [("6")]; both calls fail with the one [TypeError] whose
    message is the constant "No alternatives were matched": the failure
    carries nothing of the arguments that were tried. *)
Theorem C5_no_match_carries_nothing :
  let times := function_ host (Times number pair) ready in
  (forall c, c ∈ timesSequence -> c.1 [VNumber 3; VString "6"] = false) /\
  (forall c, c ∈ timesSequence -> c.1 [VString "6"] = false) /\
  callOf times [VNumber 3; VString "6"] = Err (TypeError "No alternatives were matched") /\
  callOf times [VString "6"] = Err (TypeError "No alternatives were matched").
Proof.
  intros times.
  assert (forallb (fun c => negb (c.1 [VNumber 3; VString "6"])
                            && negb (c.1 [VString "6"])) timesSequence = true)
    as Hrejected by (vm_compute; reflexivity).
  rewrite forallb_forall in Hrejected.
  split; [|split; [|split; vm_compute; reflexivity]].
  - intros c Hc%list_elem_of_In%Hrejected. by destruct (c.1 _).
  - intros c Hc%list_elem_of_In%Hrejected.
    apply andb_prop in Hc as [_ Hc]. by destruct (c.1 _).
Qed.

(** The chain of the sample registry: strings convert to numbers, numbers
    to pairs. *)
Example chain_edges :
  edge (this normReady) Pair {| fromType := Number; convert := fromNumber |} /\
  edge (this normReady) Number {| fromType := String_; convert := parse |}.
Proof.
  split.
  - split; [reflexivity|]. exists [ {| fromType := Number; convert := fromNumber |} ].
    split; [vm_compute; reflexivity|left].
  - split; [reflexivity|]. exists [ {| fromType := String_; convert := parse |} ].
    split; [vm_compute; reflexivity|left].
Qed.

Example norm_arrays :
  let first := function_ chainHost Norm normReady in
  let second := function_ chainHost Norm first.2 in
  heap normReady = [[Pair]] /\
  heap first.2 = [[Pair; Number]] /\
  heap second.2 = [[Pair; Number; String_]].
Proof. repeat split; vm_compute; reflexivity. Qed.

Lemma C10_expands_in_place_witness :
  0 ∈ parametersOf (default [] normDecorated.1) /\
  (let r := _convertParamToUnion chainHost 0 normReady in
   length (deref (heap normReady) 0) < length (deref (heap r.2) 0)) /\
  (let first := function_ chainHost Norm normReady in
   let second := function_ chainHost Norm first.2 in
   function_ chainHost Norm normReady = (Ok (compiled first), first.2) /\
   function_ chainHost Norm first.2 = (Ok (compiled second), second.2) /\
   Number ∈ deref (heap first.2) 0 /\
   String_ ∈ deref (heap second.2) 0).
Proof.
  destruct (C10_compiling_expands_in_place chainHost)
    as (Hdecorator & Hslot & Hfunction & Hsecond).
  destruct chain_edges as [Hpair Hnumber].
  assert (Pair ∈ deref (heap normReady) 0) as Hin by (vm_compute; left).
  assert (0 ∈ parametersOf [("norm", [[0]])]) as Hzero by (vm_compute; left).
  split; [|split].
  - exact (proj1 (Hdecorator [TypeArray 0] None "norm" None [[Pair]] 0 0 eq_refl)).
  - intros r.
    destruct (Hslot 0 normReady r.1 r.2 (surjective_pairing r)) as (_ & _ & Hlonger).
    apply (Hlonger Pair _ Hin Hpair). apply notIndexOf_true. vm_compute. reflexivity.
  - intros first second.
    assert (function_ chainHost Norm normReady = (Ok (compiled first), first.2)) as Hfn
      by (vm_compute; reflexivity).
    assert (function_ chainHost Norm first.2 = (Ok (compiled second), second.2)) as Hfn'
      by (vm_compute; reflexivity).
    split; [exact Hfn|]. split; [exact Hfn'|]. split.
    + exact (proj2 (Hfunction Norm normReady (compiled first) first.2 [("norm", [[0]])]
                      Hfn eq_refl 0 Hzero) Pair _ Hin Hpair).
    + exact (Hsecond Norm normReady (compiled first) first.2 (compiled second) second.2
               [("norm", [[0]])] Hfn Hfn' eq_refl 0 Pair _ _ Hzero Hin Hpair Hnumber).
Defined.

(** A method named by an array index is enumerated, and so tried, ahead of
    a method with a name that was decorated before it. *)
Example index_key_first :
  (default [] indexDecorated.1).*1 = ["1"; "b"] /\
  callOf (function_ host Indexed indexedReady) [VNumber 7] = Ok (VString "1").
Proof. split; vm_compute; reflexivity. Qed.

End Runs.
